(** * go-itertools: a shallow embedding of Go 1.23 iterators

    An [iter.Seq[V]] is a function [func(yield func(V) bool)].  We model one
    traversal of it as a resumable producer: given the current contents of
    the heap, it runs until it either returns ([Done]), panics ([Panic]),
    makes an internal step without yielding ([Tau]), or calls [yield]
    ([Yield v h k]): [h] is the heap at the call and [k] resumes the producer
    with the heap left by the consumer once [yield] has returned [true].
    [yield] returning [false] is modelled by dropping [k]: every producer of
    this package returns immediately in that case.

    The heap holds the variables captured and mutated by closures, such as
    the parameter [n] of [Take] and the counter [i] of [Chunks]: each is a
    Go [uint], modelled as [N].  A sequence value is [Heap -> Step A], and
    driving it twice means running it twice, threading the heap. *)

From Stdlib Require Import String.
From Stdlib Require Import List Arith Lia NArith ZArith Bool.
From Stdlib Require Import Sorted.
Import ListNotations.

Set Implicit Arguments.

(** ** Heap of captured variables *)

Definition loc := nat.
Definition Heap := list N.

Definition load (h : Heap) (l : loc) : N := nth l h 0%N.

Fixpoint store (h : Heap) (l : loc) (v : N) : Heap :=
  match h, l with
  | [], _ => []
  | _ :: h', O => v :: h'
  | x :: h', S l' => x :: store h' l' v
  end.

(** Allocation of a fresh captured variable, done when a constructor such
    as [Take] is called (the closure outlives the call). *)
Definition Alloc (A : Type) := Heap -> A * Heap.

Definition alloc (v : N) : Alloc loc := fun h => (length h, h ++ [v]).

Definition alloc_ret {A} (x : A) : Alloc A := fun h => (x, h).

Definition alloc_bind {A B} (m : Alloc A) (f : A -> Alloc B) : Alloc B :=
  fun h => let (x, h1) := m h in f x h1.

Notation "x <- m ;; k" := (alloc_bind m (fun x => k))
  (at level 61, m at next level, right associativity).

(** Go [uint] arithmetic (64 bits). *)
Definition uint_modulus : N := 2 ^ 64.
Definition uint_inc (x : N) : N := N.modulo (x + 1) uint_modulus.

(** Go run-time panics that this package can raise. *)
Inductive go_panic : Type := IntegerDivideByZero.

(** [x / y] on [uint]: a run-time panic when [y = 0]. *)
Definition uint_div (x y : N) : option N :=
  if N.eqb y 0 then None else Some (N.div x y).

(** ** Producers *)

CoInductive Step (A : Type) : Type :=
| Done (h : Heap)
| Panic (p : go_panic)
| Tau (next : Step A)
| Yield (v : A) (h : Heap) (k : Heap -> Step A).

Arguments Done {A} h.
Arguments Panic {A} p.

Definition Seq (A : Type) := Heap -> Step A.

Definition step_frob {A} (s : Step A) : Step A :=
  match s with
  | Done h => Done h
  | Panic p => Panic p
  | Tau s' => Tau s'
  | Yield v h k => Yield v h k
  end.

Lemma step_frob_eq {A} (s : Step A) : s = step_frob s.
Proof. destruct s; reflexivity. Qed.

(** ** Driving a sequence to completion ([slices.Collect])

    [Runs s o]: the traversal [s], driven by a consumer that accepts every
    value and leaves the heap alone, ends with outcome [o]. *)

Inductive outcome (A : Type) : Type :=
| Finished (vs : list A) (h : Heap)
| Panicked (vs : list A) (p : go_panic).

Arguments Finished {A} vs h.
Arguments Panicked {A} vs p.

Definition outcome_cons {A} (v : A) (o : outcome A) : outcome A :=
  match o with
  | Finished vs h => Finished (v :: vs) h
  | Panicked vs p => Panicked (v :: vs) p
  end.

Inductive Runs {A} : Step A -> outcome A -> Prop :=
| runs_done h : Runs (Done h) (Finished [] h)
| runs_panic p : Runs (Panic p) (Panicked [] p)
| runs_tau s o : Runs s o -> Runs (Tau s) o
| runs_yield v h k o : Runs (k h) o -> Runs (Yield v h k) (outcome_cons v o).

(** The same, executable, with fuel ([None]: fuel exhausted). *)
Fixpoint run {A} (fuel : nat) (s : Step A) : option (outcome A) :=
  match fuel with
  | O => None
  | S f =>
      match s with
      | Done h => Some (Finished [] h)
      | Panic p => Some (Panicked [] p)
      | Tau s' => run f s'
      | Yield v h k =>
          match run f (k h) with
          | Some o => Some (outcome_cons v o)
          | None => None
          end
      end
  end.

(** ** FromSlice *)

CoFixpoint from_slice {V} (vs : list V) (h : Heap) : Step V :=
  match vs with
  | [] => Done h
  | v :: vs' => Yield v h (from_slice vs')
  end.

Definition FromSlice {V} (vs : list V) : Seq V := from_slice vs.

(** ** TakeWhile / Take

    [p] is a closure that may read and write the heap. *)

CoFixpoint take_while {V} (p : V -> Heap -> bool * Heap) (s : Step V) : Step V :=
  match s with
  | Done h => Done h
  | Panic e => Panic e
  | Tau s' => Tau (take_while p s')
  | Yield v h k =>
      let (ok, h1) := p v h in
      if ok then Yield v h1 (fun h2 => take_while p (k h2)) else Done h1
  end.

Definition TakeWhile {V} (seq : Seq V) (p : V -> Heap -> bool * Heap) : Seq V :=
  fun h => take_while p (seq h).

(** The closure of [Take] and [Drop]: [if n == 0 { return false }; n--;
    return true], where [n] is the captured parameter at location [c]. *)
Definition count_down {V} (c : loc) (_ : V) (h : Heap) : bool * Heap :=
  if N.eqb (load h c) 0 then (false, h) else (true, store h c (load h c - 1)).

Definition Take {V} (seq : Seq V) (n : N) : Alloc (Seq V) :=
  c <- alloc n ;; alloc_ret (TakeWhile seq (count_down c)).

(** ** DropWhile / Drop

    [next, stop := iter.Pull(seq)]: the first loop pulls and discards the
    values passing [p]; the first one failing [p] is yielded, and the second
    loop forwards what the cursor produces next, unchanged. *)

CoFixpoint drop_while {V} (p : V -> Heap -> bool * Heap) (s : Step V) : Step V :=
  match s with
  | Done h => Done h
  | Panic e => Panic e
  | Tau s' => Tau (drop_while p s')
  | Yield v h k =>
      let (skip, h1) := p v h in
      if skip then Tau (drop_while p (k h1)) else Yield v h1 k
  end.

Definition DropWhile {V} (seq : Seq V) (p : V -> Heap -> bool * Heap) : Seq V :=
  fun h => drop_while p (seq h).

Definition Drop {V} (seq : Seq V) (n : N) : Alloc (Seq V) :=
  c <- alloc n ;; alloc_ret (DropWhile seq (count_down c)).

(** ** Chain *)

CoFixpoint chain {V} (seq2 : Seq V) (s : Step V) : Step V :=
  match s with
  | Done h => seq2 h
  | Panic e => Panic e
  | Tau s' => Tau (chain seq2 s')
  | Yield v h k => Yield v h (fun h' => chain seq2 (k h'))
  end.

Definition Chain {V} (seq1 seq2 : Seq V) : Seq V := fun h => chain seq2 (seq1 h).

(** ** WithFunc / Repeat / RepeatN *)

CoFixpoint with_func {V} (f : Heap -> V * Heap) (h : Heap) : Step V :=
  let (v, h1) := f h in Yield v h1 (with_func f).

Definition WithFunc {V} (f : Heap -> V * Heap) : Seq V := with_func f.

Definition Repeat {V} (v : V) : Seq V := WithFunc (fun h => (v, h)).

Definition RepeatN {V} (v : V) (n : N) : Alloc (Seq V) := Take (Repeat v) n.

(** ** Cycle

    [cycle_first vs] is the first [for v := range seq] loop, [vs] the values
    appended so far; [cycle_rest vs cur] is [for len(vs) > 0 { for _, v :=
    range vs { ... } }], [cur] being what is left of the current round. *)

CoFixpoint cycle_rest {V} (vs cur : list V) (h : Heap) : Step V :=
  match cur with
  | v :: cur' => Yield v h (cycle_rest vs cur')
  | [] =>
      match vs with
      | [] => Done h
      | _ :: _ => Tau (cycle_rest vs vs h)
      end
  end.

CoFixpoint cycle_first {V} (vs : list V) (s : Step V) : Step V :=
  match s with
  | Done h => cycle_rest vs vs h
  | Panic e => Panic e
  | Tau s' => Tau (cycle_first vs s')
  | Yield v h k => Yield v h (fun h' => cycle_first (vs ++ [v]) (k h'))
  end.

Definition Cycle {V} (seq : Seq V) : Seq V := fun h => cycle_first [] (seq h).

(** ** Filter *)

CoFixpoint filter {V} (p : V -> bool) (s : Step V) : Step V :=
  match s with
  | Done h => Done h
  | Panic e => Panic e
  | Tau s' => Tau (filter p s')
  | Yield v h k =>
      if p v then Yield v h (fun h' => filter p (k h')) else Tau (filter p (k h))
  end.

Definition Filter {V} (seq : Seq V) (p : V -> bool) : Seq V := fun h => filter p (seq h).

(** ** InterleaveShortest / InterleaveLongest

    [c1], [c2] are the two [iter.Pull] cursors (a cursor is the rest of its
    sequence), [turn1] is [isSeq1Turn] and [s] is the pull in progress on
    the cursor whose turn it is. *)

CoFixpoint interleave_shortest {V} (c1 c2 : Seq V) (turn1 : bool) (s : Step V) : Step V :=
  match s with
  | Done h => Done h
  | Panic e => Panic e
  | Tau s' => Tau (interleave_shortest c1 c2 turn1 s')
  | Yield v h k =>
      Yield v h (fun h' =>
        if turn1 then interleave_shortest k c2 false (c2 h')
        else interleave_shortest c1 k true (c1 h'))
  end.

Definition InterleaveShortest {V} (seq1 seq2 : Seq V) : Seq V :=
  fun h => interleave_shortest seq1 seq2 true (seq1 h).

(** After the first loop breaks, [isSeq1Turn] is flipped and the cursor of
    the other side is drained. *)
CoFixpoint interleave_longest {V} (c1 c2 : Seq V) (turn1 : bool) (s : Step V) : Step V :=
  match s with
  | Done h => if negb turn1 then c1 h else c2 h
  | Panic e => Panic e
  | Tau s' => Tau (interleave_longest c1 c2 turn1 s')
  | Yield v h k =>
      Yield v h (fun h' =>
        if turn1 then interleave_longest k c2 false (c2 h')
        else interleave_longest c1 k true (c1 h'))
  end.

Definition InterleaveLongest {V} (seq1 seq2 : Seq V) : Seq V :=
  fun h => interleave_longest seq1 seq2 true (seq1 h).

(** ** ZipShortest ([iter.Seq2[V, W]] is modelled as a sequence of pairs) *)

CoFixpoint zip_next1 {V W} (c2 : Seq W) (s1 : Step V) : Step (V * W) :=
  match s1 with
  | Done h => Done h
  | Panic e => Panic e
  | Tau s' => Tau (zip_next1 c2 s')
  | Yield v h k1 => Tau (zip_next2 k1 v (c2 h))
  end
with zip_next2 {V W} (c1 : Seq V) (v : V) (s2 : Step W) : Step (V * W) :=
  match s2 with
  | Done h => Done h
  | Panic e => Panic e
  | Tau s' => Tau (zip_next2 c1 v s')
  | Yield w h k2 => Yield (v, w) h (fun h' => zip_next1 k2 (c1 h'))
  end.

Definition ZipShortest {V W} (seq1 : Seq V) (seq2 : Seq W) : Seq (V * W) :=
  fun h => zip_next1 seq2 (seq1 h).

(** ** ChunkBy / Chunks

    [key] is a closure that may read and write the heap and may panic
    ([None]); [K_eq_dec] decides Go's [==] on the comparable type [K].
    [vs] is the group being accumulated and [lastK] its key. *)

Section ChunkBy.
Variables (V K : Type) (K_eq_dec : forall x y : K, {x = y} + {x <> y}).
Variable key : V -> Heap -> option (K * Heap).

CoFixpoint chunk_by_loop (vs : list V) (lastK : K) (s : Step V) : Step (Seq V) :=
  match s with
  | Done h => Yield (FromSlice vs) h (fun h' => Done h')
  | Panic e => Panic e
  | Tau s' => Tau (chunk_by_loop vs lastK s')
  | Yield v h k =>
      match key v h with
      | None => Panic IntegerDivideByZero
      | Some (kv, h1) =>
          if K_eq_dec kv lastK then Tau (chunk_by_loop (vs ++ [v]) lastK (k h1))
          else Yield (FromSlice vs) h1 (fun h2 => chunk_by_loop [v] kv (k h2))
      end
  end.

CoFixpoint chunk_by_first (s : Step V) : Step (Seq V) :=
  match s with
  | Done h => Done h
  | Panic e => Panic e
  | Tau s' => Tau (chunk_by_first s')
  | Yield v h k =>
      match key v h with
      | None => Panic IntegerDivideByZero
      | Some (kv, h1) => Tau (chunk_by_loop [v] kv (k h1))
      end
  end.

Definition ChunkBy (seq : Seq V) : Seq (Seq V) := fun h => chunk_by_first (seq h).

End ChunkBy.

Arguments chunk_by_loop {V K} K_eq_dec key vs lastK s.
Arguments chunk_by_first {V K} K_eq_dec key s.
Arguments ChunkBy {V K} K_eq_dec key seq _.

(** The key closure of [Chunks]: [k := i / s; i++; return k], [i] at [c]. *)
Definition chunks_key {V} (c : loc) (sz : N) (_ : V) (h : Heap) : option (N * Heap) :=
  let i := load h c in
  match uint_div i sz with
  | None => None
  | Some k => Some (k, store h c (uint_inc i))
  end.

Definition Chunks {V} (seq : Seq V) (sz : N) : Alloc (Seq (Seq V)) :=
  c <- alloc 0 ;; alloc_ret (ChunkBy N.eq_dec (chunks_key c sz) seq).

(** ** iter.Pull, MinFunc, MaxFunc *)

Inductive pulled (V : Type) : Type :=
| Exhausted (h : Heap)
| Pulled (v : V) (h : Heap) (rest : Seq V)
| PullPanic (p : go_panic).

Arguments Exhausted {V} h.
Arguments PullPanic {V} p.

(** [next()]: resume the producer until it yields or returns. *)
Fixpoint pull_next {V} (fuel : nat) (s : Step V) : option (pulled V) :=
  match fuel with
  | O => None
  | S f =>
      match s with
      | Done h => Some (Exhausted h)
      | Panic e => Some (PullPanic e)
      | Tau s' => pull_next f s'
      | Yield v h k => Some (Pulled v h k)
      end
  end.

(** Result of a Go function call: a return value with the heap, or a panic. *)
Inductive go_result (R : Type) : Type :=
| Returned (r : R) (h : Heap)
| Raised (p : go_panic).

Arguments Raised {R} p.

(** [for v, ok := next(); ok; v, ok = next() { if better(v, ext) { ext = v } }] *)
Fixpoint extreme_loop {V} (fuel : nat) (better : V -> V -> bool) (ext : V) (s : Step V)
  : option (go_result (V * bool)) :=
  match fuel with
  | O => None
  | S f =>
      match pull_next f s with
      | None => None
      | Some (Exhausted h) => Some (Returned (ext, true) h)
      | Some (PullPanic e) => Some (Raised e)
      | Some (Pulled v h k) => extreme_loop f better (if better v ext then v else ext) (k h)
      end
  end.

(** [zero] is the zero value of [V], returned by [next()] when exhausted. *)
Definition extreme_func {V} (fuel : nat) (zero : V) (better : V -> V -> bool)
  (seq : Seq V) (h : Heap) : option (go_result (V * bool)) :=
  match pull_next fuel (seq h) with
  | None => None
  | Some (Exhausted h1) => Some (Returned (zero, false) h1)
  | Some (PullPanic e) => Some (Raised e)
  | Some (Pulled v h1 k) => extreme_loop fuel better v (k h1)
  end.

Definition MinFunc {V} (fuel : nat) (zero : V) (seq : Seq V) (cmp : V -> V -> Z) (h : Heap) :=
  extreme_func fuel zero (fun v m => Z.ltb (cmp v m) 0) seq h.

Definition MaxFunc {V} (fuel : nat) (zero : V) (seq : Seq V) (cmp : V -> V -> Z) (h : Heap) :=
  extreme_func fuel zero (fun v m => Z.gtb (cmp v m) 0) seq h.

(** [cmp.Compare] on integers, and [Min] / [Max] over it. *)
Definition cmp_Compare (x y : Z) : Z :=
  match Z.compare x y with Lt => -1 | Eq => 0 | Gt => 1 end.

Definition Min (fuel : nat) (seq : Seq Z) (h : Heap) := MinFunc fuel 0%Z seq cmp_Compare h.

Definition Max (fuel : nat) (seq : Seq Z) (h : Heap) := MaxFunc fuel 0%Z seq cmp_Compare h.

(** ** Programs of the claims *)

(** [Chain(Take(seq, n), Drop(seq, n))]; Go evaluates the arguments left to
    right, so [Take]'s captured [n] is allocated first. *)
Definition chain_take_drop {V} (seq : Seq V) (n : N) : Alloc (Seq V) :=
  t <- Take seq n ;; d <- Drop seq n ;; alloc_ret (Chain t d).

(** [Take(Cycle(seq), n)] *)
Definition take_cycle {V} (seq : Seq V) (n : N) : Alloc (Seq V) := Take (Cycle seq) n.

(** Call a constructor (allocating its captured variables), then drive the
    returned sequence once. *)
Definition launch {A} (m : Alloc (Seq A)) (h0 : Heap) : Step A :=
  let (seq, h) := m h0 in seq h.

(** [TwoTraversals m h0 o1 o2]: calling the constructor [m] on heap [h0],
    then driving the returned sequence value to completion twice in a row,
    gives [o1] on the first traversal and [o2] on the second one. *)
Definition TwoTraversals {A} (m : Alloc (Seq A)) (h0 : Heap) (o1 o2 : outcome A) : Prop :=
  let (seq, h) := m h0 in
  Runs (seq h) o1 /\ forall l1 h1, o1 = Finished l1 h1 -> Runs (seq h1) o2.

(** The first [n] values of the infinite repetition of [vs], when [cur] is
    what is left of the current round. *)
Fixpoint cycle_take {V} (vs cur : list V) (n : nat) : list V :=
  match n with
  | O => []
  | S n' =>
      match cur with
      | v :: cur' => v :: cycle_take vs cur' n'
      | [] =>
          match vs with
          | [] => []
          | v :: vs' => v :: cycle_take vs vs' n'
          end
      end
  end.

(** The values of a list of pairs, flattened in order: [a1, b1, a2, b2, ...]. *)
Definition flatten_pairs {V} (ps : list (V * V)) : list V :=
  flat_map (fun p => [fst p; snd p]) ps.

(** A group is nonempty and all its values map to the same key. *)
Definition uniform_group {V K} (keyf : V -> K) (g : list V) : Prop :=
  g <> [] /\ forall x y, In x g -> In y g -> keyf x = keyf y.

(** Values of two adjacent groups map to different keys. *)
Fixpoint adjacent_keys_differ {V K} (keyf : V -> K) (gs : list (list V)) : Prop :=
  match gs with
  | g1 :: ((g2 :: _) as rest) =>
      (forall x y, In x g1 -> In y g2 -> keyf x <> keyf y) /\ adjacent_keys_differ keyf rest
  | _ => True
  end.

(** A caller's key function, which neither touches the heap nor panics. *)
Definition pure_key {V K} (keyf : V -> K) (v : V) (h : Heap) : option (K * Heap) :=
  Some (keyf v, h).

(** Prepend a list of yielded values to an outcome. *)
Definition outcome_app {A} (l : list A) (o : outcome A) : outcome A :=
  fold_right outcome_cons o l.

(** Two heaps that differ at most at location [c]. *)
Definition agree_except (c : loc) (h h' : Heap) : Prop :=
  length h' = length h /\ forall c', c' <> c -> load h' c' = load h c'.

(** ** Map, MapFromSeq2, MapToSeq2

    An [iter.Seq2[V, W]] is modelled as a sequence of pairs. *)

CoFixpoint map_step {V W} (f : V -> W) (s : Step V) : Step W :=
  match s with
  | Done h => Done h
  | Panic e => Panic e
  | Tau s' => Tau (map_step f s')
  | Yield v h k => Yield (f v) h (fun h' => map_step f (k h'))
  end.

Definition Map {V W} (seq : Seq V) (f : V -> W) : Seq W := fun h => map_step f (seq h).

Definition MapFromSeq2 {V W X} (seq : Seq (V * W)) (f : V -> W -> X) : Seq X :=
  Map seq (fun vw => f (fst vw) (snd vw)).

Definition MapToSeq2 {V W X} (seq : Seq V) (f : V -> W * X) : Seq (W * X) := Map seq f.

(** ** Flatten: the outer loop, and the inner loop over one inner sequence
    ([k] resumes the outer sequence once the inner one returns). *)

CoFixpoint flatten_outer {V} (s : Step (Seq V)) : Step V :=
  match s with
  | Done h => Done h
  | Panic e => Panic e
  | Tau s' => Tau (flatten_outer s')
  | Yield inner h k => Tau (flatten_inner k (inner h))
  end
with flatten_inner {V} (k : Heap -> Step (Seq V)) (t : Step V) : Step V :=
  match t with
  | Done h => Tau (flatten_outer (k h))
  | Panic e => Panic e
  | Tau t' => Tau (flatten_inner k t')
  | Yield v h k' => Yield v h (fun h' => flatten_inner k (k' h'))
  end.

Definition Flatten {V} (seq : Seq (Seq V)) : Seq V := fun h => flatten_outer (seq h).

(** ** ReverseSlice: [for i := len(vs) - 1; i >= 0; i--], [n] being [i + 1]. *)

CoFixpoint reverse_from {V} (vs : list V) (n : nat) (h : Heap) : Step V :=
  match n with
  | O => Done h
  | S i =>
      match nth_error vs i with
      | Some v => Yield v h (reverse_from vs i)
      | None => Done h   (* unreachable: [i < len(vs)] *)
      end
  end.

Definition ReverseSlice {V} (vs : list V) : Seq V := reverse_from vs (length vs).

(** ** Consumers: Reduce, All, Any, None, IsSortedFunc, IsSorted

    A [for v := range seq] loop in a function that returns a value; a
    [return] from its body stops the sequence. *)

Fixpoint reduce_loop {V W} (fuel : nat) (f : W -> V -> W) (value : W) (s : Step V)
  : option (go_result W) :=
  match fuel with
  | O => None
  | S n =>
      match s with
      | Done h => Some (Returned value h)
      | Panic e => Some (Raised e)
      | Tau s' => reduce_loop n f value s'
      | Yield v h k => reduce_loop n f (f value v) (k h)
      end
  end.

Definition Reduce {V W} (fuel : nat) (seq : Seq V) (f : W -> V -> W) (init : W) (h : Heap) :=
  reduce_loop fuel f init (seq h).

Fixpoint all_loop {V} (fuel : nat) (p : V -> bool) (s : Step V) : option (go_result bool) :=
  match fuel with
  | O => None
  | S n =>
      match s with
      | Done h => Some (Returned true h)
      | Panic e => Some (Raised e)
      | Tau s' => all_loop n p s'
      | Yield v h k => if p v then all_loop n p (k h) else Some (Returned false h)
      end
  end.

Definition All {V} (fuel : nat) (seq : Seq V) (p : V -> bool) (h : Heap) := all_loop fuel p (seq h).

Fixpoint any_loop {V} (fuel : nat) (p : V -> bool) (s : Step V) : option (go_result bool) :=
  match fuel with
  | O => None
  | S n =>
      match s with
      | Done h => Some (Returned false h)
      | Panic e => Some (Raised e)
      | Tau s' => any_loop n p s'
      | Yield v h k => if p v then Some (Returned true h) else any_loop n p (k h)
      end
  end.

Definition Any {V} (fuel : nat) (seq : Seq V) (p : V -> bool) (h : Heap) := any_loop fuel p (seq h).

(** [None] is a constructor of [option]: the Go function is [None_]. *)
Definition None_ {V} (fuel : nat) (seq : Seq V) (p : V -> bool) (h : Heap) : option (go_result bool) :=
  match Any fuel seq p h with
  | Some (Returned b h1) => Some (Returned (negb b) h1)
  | Some (Raised e) => Some (Raised e)
  | None => None
  end.

(** [for v, ok := next(); ok; v, ok = next() { if cmp(prev, v) > 0 { return
    false }; prev = v }] *)
Fixpoint is_sorted_loop {V} (fuel : nat) (cmp : V -> V -> Z) (prev : V) (s : Step V)
  : option (go_result bool) :=
  match fuel with
  | O => None
  | S f =>
      match pull_next f s with
      | None => None
      | Some (Exhausted h) => Some (Returned true h)
      | Some (PullPanic e) => Some (Raised e)
      | Some (Pulled v h k) =>
          if Z.gtb (cmp prev v) 0 then Some (Returned false h) else is_sorted_loop f cmp v (k h)
      end
  end.

Definition IsSortedFunc {V} (fuel : nat) (seq : Seq V) (cmp : V -> V -> Z) (h : Heap)
  : option (go_result bool) :=
  match pull_next fuel (seq h) with
  | None => None
  | Some (Exhausted h1) => Some (Returned true h1)
  | Some (PullPanic e) => Some (Raised e)
  | Some (Pulled v h1 k) => is_sorted_loop fuel cmp v (k h1)
  end.

Definition IsSorted (fuel : nat) (seq : Seq Z) (h : Heap) := IsSortedFunc fuel seq cmp_Compare h.

(** ** Reference list functions for the properties below *)

(** The outcome of a traversal with every yielded value passed through [f]. *)
Definition outcome_map {A B} (f : A -> B) (o : outcome A) : outcome B :=
  match o with
  | Finished vs h => Finished (map f vs) h
  | Panicked vs p => Panicked (map f vs) p
  end.

(** A caller's predicate, which does not touch the heap. *)
Definition pure_pred {V} (p : V -> bool) (v : V) (h : Heap) : bool * Heap := (p v, h).

(** The longest prefix of [l] whose values satisfy [p]. *)
Fixpoint prefix_while {V} (p : V -> bool) (l : list V) : list V :=
  match l with
  | [] => []
  | v :: l' => if p v then v :: prefix_while p l' else []
  end.

(** [l] without its longest prefix whose values satisfy [p]. *)
Fixpoint suffix_after {V} (p : V -> bool) (l : list V) : list V :=
  match l with
  | [] => []
  | v :: l' => if p v then suffix_after p l' else l
  end.

(** Every value compares [<= 0] against the next one. *)
Fixpoint adjacent_le {V} (cmp : V -> V -> Z) (l : list V) : bool :=
  match l with
  | x :: ((y :: _) as t) => Z.leb (cmp x y) 0 && adjacent_le cmp t
  | _ => true
  end.

(** * Proofs *)

(** ** The heap *)

Lemma store_length h c v : length (store h c v) = length h.
Proof.
  revert c; induction h as [|x h IH]; intros [|c]; simpl; auto.
Qed.

Lemma load_store_same h c v : c < length h -> load (store h c v) c = v.
Proof.
  unfold load; revert c; induction h as [|x h IH]; intros [|c] Hc; simpl in *;
    try lia; auto.
  apply IH; lia.
Qed.

Lemma load_store_other h c c' v : c' <> c -> load (store h c v) c' = load h c'.
Proof.
  unfold load; revert c c'; induction h as [|x h IH]; intros [|c] [|c'] Hne;
    simpl; auto; try congruence.
Qed.

Lemma agree_except_refl c h : agree_except c h h.
Proof. split; auto. Qed.

Lemma agree_except_store c h v : agree_except c h (store h c v).
Proof.
  split; [apply store_length|]. intros; apply load_store_other; auto.
Qed.

Lemma agree_except_trans c h1 h2 h3 :
  agree_except c h1 h2 -> agree_except c h2 h3 -> agree_except c h1 h3.
Proof.
  intros [L1 E1] [L2 E2]; split; [congruence|].
  intros c' Hc; rewrite E2, E1; auto.
Qed.

Lemma load_alloc_last h v : load (h ++ [v]) (length h) = v.
Proof. unfold load; rewrite app_nth2, Nat.sub_diag by lia; reflexivity. Qed.

Lemma load_alloc_old h v c : c < length h -> load (h ++ [v]) c = load h c.
Proof. intros; unfold load; rewrite app_nth1 by lia; reflexivity. Qed.

(** ** Traversals *)

Lemma runs_det {A} (s : Step A) o1 o2 : Runs s o1 -> Runs s o2 -> o1 = o2.
Proof.
  intros H1; revert o2; induction H1 as [h|p|s o H IH|v h k o H IH];
    intros o2 H2; inversion H2; subst; auto.
  f_equal; auto.
Qed.

Lemma run_sound {A} fuel (s : Step A) o : run fuel s = Some o -> Runs s o.
Proof.
  revert s o; induction fuel as [|f IH]; intros s o H; [discriminate|].
  destruct s as [h|p|s'|v h k]; simpl in H.
  - injection H as <-; constructor.
  - injection H as <-; constructor.
  - constructor; auto.
  - destruct (run f (k h)) eqn:E; [|discriminate].
    injection H as <-; constructor; auto.
Qed.

Lemma runs_yield_fin {A} (v : A) h k l h' :
  Runs (k h) (Finished l h') -> Runs (Yield v h k) (Finished (v :: l) h').
Proof. intros H; exact (@runs_yield A v h k (Finished l h') H). Qed.

Lemma from_slice_nil {V} h : @from_slice V [] h = Done h.
Proof. rewrite (step_frob_eq (from_slice _ _)); reflexivity. Qed.

Lemma from_slice_cons {V} (v : V) vs h : from_slice (v :: vs) h = Yield v h (from_slice vs).
Proof. rewrite (step_frob_eq (from_slice _ _)); reflexivity. Qed.

Lemma runs_from_slice {V} (l : list V) h : Runs (FromSlice l h) (Finished l h).
Proof.
  unfold FromSlice; induction l as [|v l IH].
  - rewrite from_slice_nil; constructor.
  - rewrite from_slice_cons; apply runs_yield_fin; exact IH.
Qed.

Lemma chain_done {V} (seq2 : Seq V) h : chain seq2 (Done h) = seq2 h.
Proof.
  rewrite (step_frob_eq (chain _ _)); simpl; destruct (seq2 h); reflexivity.
Qed.

Lemma runs_chain {V} (s : Step V) l1 h1 (seq2 : Seq V) o2 :
  Runs s (Finished l1 h1) -> Runs (seq2 h1) o2 ->
  Runs (chain seq2 s) (outcome_app l1 o2).
Proof.
  intros H; remember (Finished l1 h1) as o eqn:Eo; revert l1 Eo.
  induction H as [h|p|s o H IH|v h k o H IH]; intros l1 Eo H2;
    [rewrite chain_done | rewrite (step_frob_eq (chain _ _)); simpl ..].
  - injection Eo as <- <-; exact H2.
  - discriminate.
  - constructor; eauto.
  - destruct o as [l h'|]; simpl in Eo; [|discriminate].
    injection Eo as <- <-; simpl.
    apply (@runs_yield V v h (fun h' => chain seq2 (k h')) (outcome_app l o2)).
    eauto.
Qed.

(** [Take]'s closure over a slice: the first [n] values, where [n] is the
    current content of the captured variable. *)
Lemma runs_take_slice {V} (l : list V) c h :
  c < length h ->
  exists h', agree_except c h h' /\
    Runs (take_while (count_down c) (FromSlice l h))
         (Finished (firstn (N.to_nat (load h c)) l) h').
Proof.
  unfold FromSlice; revert h; induction l as [|v l IH]; intros h Hc.
  - exists h; split; [apply agree_except_refl|].
    rewrite from_slice_nil, (step_frob_eq (take_while _ _)); simpl.
    rewrite firstn_nil; constructor.
  - rewrite from_slice_cons, (step_frob_eq (take_while _ _)); simpl.
    unfold count_down at 1.
    destruct (N.eqb_spec (load h c) 0) as [E|E].
    + exists h; split; [apply agree_except_refl|].
      rewrite E; constructor.
    + set (h1 := store h c (load h c - 1)).
      assert (Hc1 : c < length h1) by (unfold h1; rewrite store_length; auto).
      destruct (IH h1 Hc1) as [h' [Ag R]].
      exists h'; split.
      * eapply agree_except_trans; [apply agree_except_store|exact Ag].
      * replace (N.to_nat (load h c)) with (S (N.to_nat (load h1 c))).
        -- simpl. apply runs_yield_fin. exact R.
        -- unfold h1; rewrite load_store_same by auto; lia.
Qed.

(** [Drop]'s closure over a slice: all but the first [n] values. *)
Lemma runs_drop_slice {V} (l : list V) c h :
  c < length h ->
  exists h', agree_except c h h' /\
    Runs (drop_while (count_down c) (FromSlice l h))
         (Finished (skipn (N.to_nat (load h c)) l) h').
Proof.
  unfold FromSlice; revert h; induction l as [|v l IH]; intros h Hc.
  - exists h; split; [apply agree_except_refl|].
    rewrite from_slice_nil, (step_frob_eq (drop_while _ _)); simpl.
    rewrite skipn_nil; constructor.
  - rewrite from_slice_cons, (step_frob_eq (drop_while _ _)); simpl.
    unfold count_down at 1.
    destruct (N.eqb_spec (load h c) 0) as [E|E].
    + exists h; split; [apply agree_except_refl|].
      rewrite E; simpl.
      apply runs_yield_fin, runs_from_slice.
    + set (h1 := store h c (load h c - 1)).
      assert (Hc1 : c < length h1) by (unfold h1; rewrite store_length; auto).
      destruct (IH h1 Hc1) as [h' [Ag R]].
      exists h'; split.
      * eapply agree_except_trans; [apply agree_except_store|exact Ag].
      * replace (N.to_nat (load h c)) with (S (N.to_nat (load h1 c))).
        -- simpl. constructor. exact R.
        -- unfold h1; rewrite load_store_same by auto; lia.
Qed.

Lemma outcome_app_finished {A} (l1 l2 : list A) h :
  outcome_app l1 (Finished l2 h) = Finished (l1 ++ l2) h.
Proof. induction l1 as [|v l1 IH]; simpl; [|rewrite IH]; reflexivity. Qed.

(** ** C7: [Chain(Take(seq, n), Drop(seq, n))] *)

(** C7. For every slice [l] and every [n <= length l], driving
    [Chain(Take(FromSlice(l), n), Drop(FromSlice(l), n))] to completion
    yields exactly [l], in order. *)
Theorem chain_take_drop_collects {V} (l : list V) (n : N) (h0 : Heap) :
  N.to_nat n <= length l ->
  exists h', Runs (launch (chain_take_drop (FromSlice l) n) h0) (Finished l h').
Proof.
  intros _.
  unfold launch, chain_take_drop, Take, Drop, alloc_bind, alloc, alloc_ret; simpl.
  set (h2 := (h0 ++ [n]) ++ [n]).
  assert (L1 : load h2 (length h0) = n).
  { unfold h2; rewrite load_alloc_old by (rewrite length_app; simpl; lia).
    apply load_alloc_last. }
  assert (L2 : load h2 (length (h0 ++ [n])) = n) by apply load_alloc_last.
  assert (Len : length h2 = S (S (length h0))).
  { unfold h2; rewrite !length_app; simpl; lia. }
  destruct (@runs_take_slice V l (length h0) h2) as [h3 [[Len3 Ag3] R3]]; [lia|].
  destruct (@runs_drop_slice V l (length (h0 ++ [n])) h3) as [h4 [_ R4]].
  { rewrite Len3, Len, length_app; simpl; lia. }
  exists h4. unfold Chain, TakeWhile, DropWhile.
  replace (Finished l h4)
    with (outcome_app (firstn (N.to_nat n) l) (Finished (skipn (N.to_nat n) l) h4))
    by (rewrite outcome_app_finished, firstn_skipn; reflexivity).
  rewrite L1 in R3.
  rewrite Ag3 in R4 by (rewrite length_app; simpl; lia).
  rewrite L2 in R4.
  eapply runs_chain; [exact R3 | exact R4].
Qed.

Lemma chain_take_drop_collects_witness :
  N.to_nat 2 <= length [10; 20; 30] /\
  exists h', Runs (launch (chain_take_drop (FromSlice [10; 20; 30]) 2) []) (Finished [10; 20; 30] h').
Proof.
  split; [simpl; lia|].
  apply (chain_take_drop_collects [10; 20; 30] 2 []); simpl; lia.
Defined.

(** ** C1: re-traversing a sequence value *)

(** C1 (divergence). The captured parameter [n] of [Take] and [Drop] (so also
    of [RepeatN]) and the counter [i] of [Chunks] live in the closure, not in
    the traversal: a second traversal of the same sequence value starts from
    the state left by the first one.  [Take(FromSlice([1,2]), 1)] yields
    [[1]] then [[]]; [Drop(FromSlice([1,2]), 1)] yields [[2]] then [[1,2]];
    [RepeatN(7, 2)] yields [[7,7]] then [[]]; [Chunks(FromSlice([0,1,2]), 2)]
    yields the groups [[0,1],[2]] then [[0],[1,2]]. *)
Theorem retraversal_differs :
  TwoTraversals (Take (FromSlice [1; 2]) 1) [] (Finished [1] [0%N]) (Finished [] [0%N]) /\
  TwoTraversals (Drop (FromSlice [1; 2]) 1) [] (Finished [2] [0%N]) (Finished [1; 2] [0%N]) /\
  TwoTraversals (RepeatN 7 2) [] (Finished [7; 7] [0%N]) (Finished [] [0%N]) /\
  TwoTraversals (Chunks (FromSlice [0; 1; 2]) 2) []
    (Finished (map FromSlice [[0; 1]; [2]]) [3%N])
    (Finished (map FromSlice [[0]; [1; 2]]) [6%N]).
Proof.
  repeat split; try (intros ? ? E; injection E as <- <-);
    apply (run_sound 20); vm_compute; reflexivity.
Qed.

(** ** C8: Cycle *)

Lemma cycle_rest_frob {V} (vs cur : list V) h :
  cycle_rest vs cur h =
  match cur with
  | v :: cur' => Yield v h (cycle_rest vs cur')
  | [] => match vs with [] => Done h | _ :: _ => Tau (cycle_rest vs vs h) end
  end.
Proof.
  rewrite (step_frob_eq (cycle_rest _ _ _)); simpl.
  destruct cur; [destruct vs|]; reflexivity.
Qed.

Lemma cycle_first_done {V} (vs : list V) h : cycle_first vs (Done h) = cycle_rest vs vs h.
Proof.
  rewrite (step_frob_eq (cycle_first _ _)), (step_frob_eq (cycle_rest vs vs h)).
  reflexivity.
Qed.

Lemma cycle_take_restart {V} (vs : list V) n : cycle_take vs [] n = cycle_take vs vs n.
Proof. destruct n as [|n]; [|destruct vs]; reflexivity. Qed.

Lemma cycle_take_app {V} (vs cur : list V) m :
  cycle_take vs cur (length cur + m) = cur ++ cycle_take vs [] m.
Proof. induction cur as [|v cur IH]; simpl; [|rewrite IH]; reflexivity. Qed.

Lemma cycle_take_repeat {V} (vs : list V) k :
  cycle_take vs [] (k * length vs) = concat (repeat vs k).
Proof.
  induction k as [|k IH]; [destruct vs; reflexivity|].
  simpl. rewrite cycle_take_restart, cycle_take_app, IH; reflexivity.
Qed.

(** Taking from the second phase of [Cycle]. *)
Lemma runs_take_cycle_rest {V} (vs : list V) c m :
  forall cur h, c < length h -> N.to_nat (load h c) = m ->
  exists h', agree_except c h h' /\
    Runs (take_while (count_down c) (cycle_rest vs cur h)) (Finished (cycle_take vs cur m) h').
Proof.
  induction m as [|m IH]; intros cur h Hc Hm.
  - exists h; split; [apply agree_except_refl|].
    assert (E : load h c = 0%N) by lia.
    rewrite cycle_rest_frob.
    destruct cur as [|v cur]; [destruct vs as [|w vs]|];
      rewrite (step_frob_eq (take_while _ _)); simpl.
    + constructor.
    + constructor. rewrite cycle_rest_frob, (step_frob_eq (take_while _ _)); simpl.
      unfold count_down; rewrite E; constructor.
    + unfold count_down; rewrite E; constructor.
  - assert (E : (load h c =? 0)%N = false) by (apply N.eqb_neq; lia).
    set (h1 := store h c (load h c - 1)).
    assert (Hc1 : c < length h1) by (unfold h1; rewrite store_length; auto).
    assert (Hm1 : N.to_nat (load h1 c) = m)
      by (unfold h1; rewrite load_store_same by auto; lia).
    rewrite cycle_rest_frob.
    destruct cur as [|v cur]; [destruct vs as [|w vs]|].
    + exists h; split; [apply agree_except_refl|].
      rewrite (step_frob_eq (take_while _ _)); simpl; constructor.
    + destruct (IH vs h1 Hc1 Hm1) as [h' [Ag R]].
      exists h'; split; [eapply agree_except_trans; [apply agree_except_store|exact Ag]|].
      rewrite (step_frob_eq (take_while _ _)); simpl; constructor.
      rewrite cycle_rest_frob, (step_frob_eq (take_while _ _)); simpl.
      unfold count_down at 1; rewrite E.
      apply runs_yield_fin; exact R.
    + destruct (IH cur h1 Hc1 Hm1) as [h' [Ag R]].
      exists h'; split; [eapply agree_except_trans; [apply agree_except_store|exact Ag]|].
      rewrite (step_frob_eq (take_while _ _)); simpl.
      unfold count_down at 1; rewrite E.
      apply runs_yield_fin; exact R.
Qed.

(** Taking from the first phase of [Cycle] over a slice. *)
Lemma runs_take_cycle_first {V} (l : list V) c :
  forall acc h, c < length h ->
  exists h', agree_except c h h' /\
    Runs (take_while (count_down c) (cycle_first acc (FromSlice l h)))
         (Finished (cycle_take (acc ++ l) l (N.to_nat (load h c))) h').
Proof.
  unfold FromSlice; induction l as [|v l IH]; intros acc h Hc.
  - rewrite from_slice_nil, cycle_first_done, app_nil_r, cycle_take_restart.
    eapply runs_take_cycle_rest; eauto.
  - rewrite from_slice_cons, (step_frob_eq (cycle_first _ _)); simpl.
    rewrite (step_frob_eq (take_while _ _)); simpl.
    unfold count_down at 1.
    destruct (N.eqb_spec (load h c) 0) as [E|E].
    + exists h; split; [apply agree_except_refl|].
      rewrite E; constructor.
    + set (h1 := store h c (load h c - 1)).
      assert (Hc1 : c < length h1) by (unfold h1; rewrite store_length; auto).
      destruct (IH (acc ++ [v]) h1 Hc1) as [h' [Ag R]].
      exists h'; split; [eapply agree_except_trans; [apply agree_except_store|exact Ag]|].
      replace (N.to_nat (load h c)) with (S (N.to_nat (load h1 c)))
        by (unfold h1; rewrite load_store_same by auto; lia).
      simpl. apply runs_yield_fin.
      rewrite <- app_assoc in R; exact R.
Qed.

Lemma runs_cycle_empty {V} (s : Step V) h' :
  Runs s (Finished [] h') -> Runs (cycle_first [] s) (Finished [] h').
Proof.
  intros H; remember (Finished [] h') as o eqn:Eo; revert Eo.
  induction H as [h|p|s o H IH|v h k o H IH]; intros Eo.
  - injection Eo as <-; rewrite cycle_first_done, cycle_rest_frob; constructor.
  - discriminate.
  - rewrite (step_frob_eq (cycle_first _ _)); simpl; constructor; auto.
  - destruct o; discriminate.
Qed.

(** C8. [Cycle] of a sequence that yields nothing yields nothing and
    returns; and for every nonempty slice [l] and every [k], taking
    [k * length l] values of [Cycle(FromSlice(l))] yields [l] repeated [k]
    times. *)
Theorem cycle_collects :
  (forall V (seq : Seq V) h h',
     Runs (seq h) (Finished [] h') -> Runs (Cycle seq h) (Finished [] h')) /\
  (forall V (l : list V) (k : nat) (h0 : Heap),
     l <> [] ->
     exists h', Runs (launch (take_cycle (FromSlice l) (N.of_nat (k * length l))) h0)
                     (Finished (concat (repeat l k)) h')).
Proof.
  split.
  - intros V seq h h' H; apply runs_cycle_empty; exact H.
  - intros V l k h0 _.
    unfold launch, take_cycle, Take, alloc_bind, alloc, alloc_ret; simpl.
    destruct (@runs_take_cycle_first V l (length h0) [] (h0 ++ [N.of_nat (k * length l)]))
      as [h' [_ R]]; [rewrite length_app; simpl; lia|].
    exists h'. rewrite load_alloc_last, Nat2N.id, app_nil_l in R.
    rewrite <- cycle_take_repeat, cycle_take_restart; exact R.
Qed.

Lemma cycle_collects_witness :
  Runs (Cycle (FromSlice (@nil nat)) []) (Finished [] []) /\
  exists h', Runs (launch (take_cycle (FromSlice [0; 1]) (N.of_nat (3 * length [0; 1]))) [])
                  (Finished (concat (repeat [0; 1] 3)) h').
Proof.
  split.
  - apply (proj1 cycle_collects). apply runs_from_slice.
  - apply (proj2 cycle_collects). discriminate.
Defined.

(** ** C2, C3, C4: InterleaveShortest, InterleaveLongest, ZipShortest *)

Lemma flatten_pairs_length {V} (ps : list (V * V)) : length (flatten_pairs ps) = 2 * length ps.
Proof. induction ps as [|p ps IH]; simpl; [|rewrite IH]; lia. Qed.

Lemma runs_interleave_shortest {V} (la lb : list V) :
  forall (c1 : Seq V) h,
  Runs (interleave_shortest c1 (FromSlice lb) true (FromSlice la h))
       (Finished (flatten_pairs (combine la lb) ++ firstn 1 (skipn (length lb) la)) h).
Proof.
  unfold FromSlice; revert lb; induction la as [|a la IH]; intros lb c1 h.
  - rewrite from_slice_nil, (step_frob_eq (interleave_shortest _ _ _ _)); simpl.
    destruct lb; constructor.
  - rewrite from_slice_cons, (step_frob_eq (interleave_shortest _ _ _ _)); simpl.
    destruct lb as [|b lb]; simpl; apply runs_yield_fin.
    + rewrite from_slice_nil, (step_frob_eq (interleave_shortest _ _ _ _)); simpl.
      constructor.
    + rewrite from_slice_cons, (step_frob_eq (interleave_shortest _ _ _ _)); simpl.
      apply runs_yield_fin. apply IH.
Qed.

Lemma interleave_shortest_length {V} (la lb : list V) :
  length (flatten_pairs (combine la lb) ++ firstn 1 (skipn (length lb) la)) =
  if length la <=? length lb then 2 * length la else 2 * length lb + 1.
Proof.
  rewrite length_app, flatten_pairs_length, length_combine.
  revert lb; induction la as [|a la IH]; intros [|b lb]; simpl; auto.
  specialize (IH lb). destruct (length la <=? length lb); simpl in *; lia.
Qed.

(** C2. For all slices [la] (length [m]) and [lb] (length [n]),
    [InterleaveShortest(FromSlice(la), FromSlice(lb))] yields
    [a1, b1, a2, b2, ...] (the pairs of [combine la lb], flattened), followed
    by [a(n+1)] when [m > n]: its length is [2m] when [m <= n] and [2n+1]
    otherwise; on [["abc","ghi"]] and [["def"]] it yields
    [["abc","def","ghi"]]. *)
Theorem interleave_shortest_collects :
  (forall V (la lb : list V) h,
     let out := flatten_pairs (combine la lb) ++ firstn 1 (skipn (length lb) la) in
     Runs (InterleaveShortest (FromSlice la) (FromSlice lb) h) (Finished out h) /\
     length out = if length la <=? length lb then 2 * length la else 2 * length lb + 1) /\
  Runs (InterleaveShortest (FromSlice ["abc"; "ghi"]%string) (FromSlice ["def"]%string) [])
       (Finished ["abc"; "def"; "ghi"]%string []).
Proof.
  split.
  - intros V la lb h out; split.
    + apply runs_interleave_shortest.
    + apply interleave_shortest_length.
  - apply (run_sound 10); reflexivity.
Qed.

Lemma interleave_longest_done {V} (c1 c2 : Seq V) turn1 h :
  interleave_longest c1 c2 turn1 (Done h) = if negb turn1 then c1 h else c2 h.
Proof.
  rewrite (step_frob_eq (interleave_longest _ _ _ _)).
  destruct turn1; simpl; [destruct (c2 h) | destruct (c1 h)]; reflexivity.
Qed.

Lemma runs_interleave_longest {V} (la lb : list V) :
  forall (c1 : Seq V) h,
  Runs (interleave_longest c1 (FromSlice lb) true (FromSlice la h))
       (Finished (flatten_pairs (combine la lb) ++ skipn (length lb) la ++ skipn (length la) lb) h).
Proof.
  unfold FromSlice; revert lb; induction la as [|a la IH]; intros lb c1 h.
  - rewrite from_slice_nil, interleave_longest_done; simpl.
    rewrite skipn_nil; apply runs_from_slice.
  - rewrite from_slice_cons, (step_frob_eq (interleave_longest _ _ _ _)); simpl.
    destruct lb as [|b lb]; simpl; apply runs_yield_fin.
    + rewrite from_slice_nil, interleave_longest_done, app_nil_r; simpl.
      apply runs_from_slice.
    + rewrite from_slice_cons, (step_frob_eq (interleave_longest _ _ _ _)); simpl.
      apply runs_yield_fin. apply IH.
Qed.

(** C3. For all slices [la] (length [m]) and [lb] (length [n]),
    [InterleaveLongest(FromSlice(la), FromSlice(lb))] yields the alternating
    phase [a1, b1, a2, b2, ...] over the first [min m n] pairs, then the
    remaining values of the longer side in order; its length is [m + n]. *)
Theorem interleave_longest_collects {V} (la lb : list V) (h : Heap) :
  let out := flatten_pairs (combine la lb) ++ skipn (length lb) la ++ skipn (length la) lb in
  Runs (InterleaveLongest (FromSlice la) (FromSlice lb) h) (Finished out h) /\
  length out = length la + length lb.
Proof.
  intros out; split.
  - apply runs_interleave_longest.
  - unfold out; rewrite !length_app, flatten_pairs_length, length_combine, !length_skipn.
    lia.
Qed.

Lemma runs_zip_shortest {V W} (la : list V) (lb : list W) h :
  Runs (ZipShortest (FromSlice la) (FromSlice lb) h) (Finished (combine la lb) h).
Proof.
  unfold ZipShortest, FromSlice; revert lb h; induction la as [|a la IH]; intros lb h.
  - rewrite from_slice_nil, (step_frob_eq (zip_next1 _ _)); simpl; constructor.
  - rewrite from_slice_cons, (step_frob_eq (zip_next1 _ _)); simpl; constructor.
    destruct lb as [|b lb].
    + rewrite from_slice_nil, (step_frob_eq (zip_next2 _ _ _)); simpl; constructor.
    + rewrite from_slice_cons, (step_frob_eq (zip_next2 _ _ _)); simpl.
      apply runs_yield_fin. apply IH.
Qed.

(** C4. For all slices [la] and [lb], [ZipShortest(FromSlice(la),
    FromSlice(lb))] yields exactly the pairs [(a1, b1), (a2, b2), ...] of the
    first [min m n] values of each side, in order. *)
Theorem zip_shortest_collects {V W} (la : list V) (lb : list W) (h : Heap) :
  Runs (ZipShortest (FromSlice la) (FromSlice lb) h) (Finished (combine la lb) h) /\
  combine la lb = combine (firstn (Nat.min (length la) (length lb)) la)
                          (firstn (Nat.min (length la) (length lb)) lb) /\
  length (combine la lb) = Nat.min (length la) (length lb).
Proof.
  split; [apply runs_zip_shortest|split; [|apply length_combine]].
  revert lb; induction la as [|a la IH]; intros [|b lb]; simpl; auto.
  rewrite IH at 1; reflexivity.
Qed.

(** ** C10: Filter *)

Lemma runs_filter {V} (p : V -> bool) (s : Step V) l h' :
  Runs s (Finished l h') -> Runs (filter p s) (Finished (List.filter p l) h').
Proof.
  intros H; remember (Finished l h') as o eqn:Eo; revert l Eo.
  induction H as [h|e|s o H IH|v h k o H IH]; intros l Eo;
    rewrite (step_frob_eq (filter _ _)); simpl.
  - injection Eo as <- <-; constructor.
  - discriminate.
  - constructor; auto.
  - destruct o as [l' h''|]; [|discriminate].
    injection Eo as <- <-; simpl.
    destruct (p v).
    + apply runs_yield_fin; auto.
    + constructor; auto.
Qed.

(** C10. For every sequence whose traversal yields [l] and every predicate
    [p], the traversal of [Filter(seq, p)] yields [List.filter p l]: the
    values satisfying [p], in their original relative order. *)
Theorem filter_collects {V} (seq : Seq V) (p : V -> bool) (h : Heap) (l : list V) (h' : Heap) :
  Runs (seq h) (Finished l h') -> Runs (Filter seq p h) (Finished (List.filter p l) h').
Proof. apply runs_filter. Qed.

Lemma filter_collects_witness :
  Runs (FromSlice [1; 2; 3; 4] []) (Finished [1; 2; 3; 4] []) /\
  Runs (Filter (FromSlice [1; 2; 3; 4]) Nat.even []) (Finished [2; 4] []).
Proof.
  split; [apply runs_from_slice|].
  apply (@filter_collects nat (FromSlice [1; 2; 3; 4]) Nat.even [] [1; 2; 3; 4] []).
  apply runs_from_slice.
Defined.

(** ** C5: ChunkBy *)

Section ChunkByProofs.
Variables (V K : Type) (K_eq_dec : forall x y : K, {x = y} + {x <> y}) (keyf : V -> K).

Lemma runs_chunk_by_loop (s : Step V) o :
  Runs s o -> forall l h', o = Finished l h' ->
  forall vs lastK, vs <> [] -> (forall x, In x vs -> keyf x = lastK) ->
  exists g gs,
    Runs (chunk_by_loop K_eq_dec (pure_key keyf) vs lastK s)
         (Finished (map FromSlice (g :: gs)) h') /\
    concat (g :: gs) = vs ++ l /\
    g <> [] /\ (forall x, In x g -> keyf x = lastK) /\
    Forall (uniform_group keyf) gs /\ adjacent_keys_differ keyf (g :: gs).
Proof.
  induction 1 as [h|e|s o H IH|v h k o H IH]; intros l h' Eo vs lastK Hvs Hk.
  - injection Eo as <- <-.
    exists vs, []; split; [|split; [|repeat split; auto]].
    + rewrite (step_frob_eq (chunk_by_loop _ _ _ _ _)); simpl.
      apply runs_yield_fin; constructor.
    + simpl; rewrite !app_nil_r; reflexivity.
  - discriminate.
  - destruct (IH l h' Eo vs lastK Hvs Hk) as [g [gs [R Rest]]].
    exists g, gs; split; [|exact Rest].
    rewrite (step_frob_eq (chunk_by_loop _ _ _ _ _)); simpl; constructor; exact R.
  - destruct o as [l' h''|]; [|discriminate]. injection Eo as <- <-.
    rewrite (step_frob_eq (chunk_by_loop _ _ _ _ _)); simpl; unfold pure_key.
    destruct (K_eq_dec (keyf v) lastK) as [E|E].
    + destruct (IH l' h'' eq_refl (vs ++ [v]) lastK) as [g [gs [R [C Rest]]]].
      * intros Hn; destruct vs; discriminate.
      * intros x Hx; apply in_app_or in Hx as [Hx|[<-|[]]]; auto.
      * exists g, gs; split; [constructor; exact R|split; [|exact Rest]].
        simpl in C |- *; rewrite C, <- app_assoc; reflexivity.
    + destruct (IH l' h'' eq_refl [v] (keyf v)) as [g [gs [R [C [Hg [Hgk [F A]]]]]]].
      * discriminate.
      * intros x [<-|[]]; reflexivity.
      * exists vs, (g :: gs); split; [|split; [|split; [auto|split; [auto|split]]]].
        -- apply runs_yield_fin; exact R.
        -- simpl in C |- *; rewrite C; reflexivity.
        -- constructor; [|exact F].
           split; [exact Hg|intros x y Hx Hy; rewrite (Hgk x Hx), (Hgk y Hy); reflexivity].
        -- split; [|exact A].
           intros x y Hx Hy; rewrite (Hk x Hx), (Hgk y Hy); auto.
Qed.

Lemma runs_chunk_by_first (s : Step V) o :
  Runs s o -> forall l h', o = Finished l h' ->
  exists gs,
    Runs (chunk_by_first K_eq_dec (pure_key keyf) s) (Finished (map FromSlice gs) h') /\
    concat gs = l /\ Forall (uniform_group keyf) gs /\ adjacent_keys_differ keyf gs.
Proof.
  induction 1 as [h|e|s o H IH|v h k o H IH]; intros l h' Eo.
  - injection Eo as <- <-.
    exists []; repeat split; auto.
    rewrite (step_frob_eq (chunk_by_first _ _ _)); simpl; constructor.
  - discriminate.
  - destruct (IH l h' Eo) as [gs [R Rest]].
    exists gs; split; [|exact Rest].
    rewrite (step_frob_eq (chunk_by_first _ _ _)); simpl; constructor; exact R.
  - destruct o as [l' h''|]; [|discriminate]. injection Eo as <- <-.
    destruct (@runs_chunk_by_loop (k h) _ H l' h'' eq_refl [v] (keyf v)) as [g [gs [R [C [Hg [Hgk [F A]]]]]]].
    + discriminate.
    + intros x [<-|[]]; reflexivity.
    + exists (g :: gs); split; [|split; [exact C|split; [|exact A]]].
      * rewrite (step_frob_eq (chunk_by_first _ _ _)); simpl; unfold pure_key.
        constructor; exact R.
      * constructor; [|exact F].
        split; [exact Hg|intros x y Hx Hy; rewrite (Hgk x Hx), (Hgk y Hy); reflexivity].
Qed.

End ChunkByProofs.

(** C5. For every sequence whose traversal yields [l] and every key
    function [keyf], the traversal of [ChunkBy(seq, keyf)] yields groups
    [FromSlice(g1), FromSlice(g2), ...] such that [g1 ++ g2 ++ ... = l], every
    group is nonempty and all its values share their key, the keys of any
    two adjacent groups differ, and there is no group at all when [l] is
    empty. *)
Theorem chunk_by_collects {V K} (K_eq_dec : forall x y : K, {x = y} + {x <> y})
  (keyf : V -> K) (seq : Seq V) (h : Heap) (l : list V) (h' : Heap) :
  Runs (seq h) (Finished l h') ->
  exists gs,
    Runs (ChunkBy K_eq_dec (pure_key keyf) seq h) (Finished (map FromSlice gs) h') /\
    concat gs = l /\
    Forall (uniform_group keyf) gs /\
    adjacent_keys_differ keyf gs /\
    (l = [] -> gs = []).
Proof.
  intros H.
  destruct (runs_chunk_by_first K_eq_dec keyf H eq_refl) as [gs [R [C [F A]]]].
  exists gs; repeat split; auto.
  intros ->. destruct gs as [|g gs]; auto.
  inversion F as [|? ? [Hg _] _]; subst.
  destruct g; [contradiction|discriminate].
Qed.

Lemma chunk_by_collects_witness :
  Runs (FromSlice [1; 1; 2; 3; 3] []) (Finished [1; 1; 2; 3; 3] []) /\
  exists gs,
    Runs (ChunkBy Nat.eq_dec (pure_key (fun x => x)) (FromSlice [1; 1; 2; 3; 3]) [])
         (Finished (map FromSlice gs) []) /\
    concat gs = [1; 1; 2; 3; 3] /\
    Forall (uniform_group (fun x : nat => x)) gs /\
    adjacent_keys_differ (fun x : nat => x) gs /\
    ([1; 1; 2; 3; 3] = [] -> gs = []).
Proof.
  split; [apply runs_from_slice|].
  apply (@chunk_by_collects nat nat Nat.eq_dec (fun x => x) (FromSlice [1; 1; 2; 3; 3]) [] [1; 1; 2; 3; 3] []).
  apply runs_from_slice.
Defined.

(** ** C6: Chunks *)

Lemma chunk_by_first_yield {V K} K_eq_dec (key : V -> Heap -> option (K * Heap)) v h k :
  chunk_by_first K_eq_dec key (Yield v h k) =
  match key v h with
  | None => Panic IntegerDivideByZero
  | Some (kv, h1) => Tau (chunk_by_loop K_eq_dec key [v] kv (k h1))
  end.
Proof.
  rewrite (step_frob_eq (chunk_by_first _ _ _)); simpl.
  destruct (key v h) as [[kv h1]|]; reflexivity.
Qed.

(** C6. [Chunks(seq, 0)] over a nonempty slice divides by zero in its key
    closure on the first value: the traversal stops before any group is
    yielded, and no error value is returned (in Go this division is a
    run-time panic).  With [s >= 1] the key closure never divides by zero,
    and [Chunks(0..9, 2)] yields the groups [[0,1],[2,3],[4,5],[6,7],[8,9]]. *)
Theorem chunks_size_precondition :
  (forall V (l : list V) (h0 : Heap),
     l <> [] ->
     Runs (launch (Chunks (FromSlice l) 0) h0) (Panicked [] IntegerDivideByZero)) /\
  (forall V (sz : N) (c : loc) (v : V) (h : Heap),
     (1 <= sz)%N -> chunks_key c sz v h <> None) /\
  Runs (launch (Chunks (FromSlice (List.seq 0 10)) 2) [])
       (Finished (map FromSlice [[0; 1]; [2; 3]; [4; 5]; [6; 7]; [8; 9]]) [10%N]).
Proof.
  split; [|split].
  - intros V [|v l] h0 Hl; [contradiction|].
    unfold launch, Chunks, ChunkBy, alloc_bind, alloc, alloc_ret; simpl.
    unfold FromSlice; rewrite from_slice_cons, chunk_by_first_yield.
    constructor.
  - intros V sz c v h Hsz.
    unfold chunks_key, uint_div.
    destruct (N.eqb_spec sz 0); [lia|discriminate].
  - apply (run_sound 40); vm_compute; reflexivity.
Qed.

Lemma chunks_size_precondition_witness :
  Runs (launch (Chunks (FromSlice [5; 6]) 0) []) (Panicked [] IntegerDivideByZero) /\
  chunks_key 0 3 tt [0%N] <> None.
Proof.
  split.
  - apply (proj1 chunks_size_precondition). discriminate.
  - apply (proj1 (proj2 chunks_size_precondition)). lia.
Defined.

(** ** C9: MinFunc / MaxFunc *)

Lemma pull_next_slice_nil {V} f h : pull_next (S f) (@FromSlice V [] h) = Some (Exhausted h).
Proof. unfold FromSlice; rewrite from_slice_nil; reflexivity. Qed.

Lemma pull_next_slice_cons {V} f (v : V) l h :
  pull_next (S f) (FromSlice (v :: l) h) = Some (Pulled v h (FromSlice l)).
Proof. unfold FromSlice; rewrite from_slice_cons; reflexivity. Qed.

Lemma extreme_loop_S {V} f (better : V -> V -> bool) ext s :
  extreme_loop (S f) better ext s =
  match pull_next f s with
  | None => None
  | Some (Exhausted h) => Some (Returned (ext, true) h)
  | Some (PullPanic e) => Some (Raised e)
  | Some (Pulled v h k) => extreme_loop f better (if better v ext then v else ext) (k h)
  end.
Proof. reflexivity. Qed.

Lemma extreme_loop_slice {V} (better : V -> V -> bool) (r : list V) :
  forall m h fuel, length r + 2 <= fuel ->
  extreme_loop fuel better m (FromSlice r h) =
  Some (Returned (fold_left (fun m v => if better v m then v else m) r m, true) h).
Proof.
  induction r as [|v r IH]; intros m h fuel Hf;
    (destruct fuel as [|[|f]]; [simpl in Hf; lia|simpl in Hf; lia|]).
  - rewrite extreme_loop_S, pull_next_slice_nil; reflexivity.
  - rewrite extreme_loop_S, pull_next_slice_cons; cbn [fold_left].
    apply IH; simpl in Hf; lia.
Qed.

Lemma extreme_func_slice {V} (zero : V) better (l : list V) h fuel :
  length l < fuel ->
  extreme_func fuel zero better (FromSlice l) h =
  match l with
  | [] => Some (Returned (zero, false) h)
  | v :: r => Some (Returned (fold_left (fun m v => if better v m then v else m) r v, true) h)
  end.
Proof.
  intros Hf; unfold extreme_func.
  destruct fuel as [|f]; [lia|].
  destruct l as [|v r].
  - rewrite pull_next_slice_nil; reflexivity.
  - rewrite pull_next_slice_cons. apply extreme_loop_slice; simpl in *; lia.
Qed.

Section FirstMinimal.
Variables (V : Type) (cmp : V -> V -> Z).
Hypothesis cmp_antisym : forall x y, cmp y x = (- cmp x y)%Z.
Hypothesis cmp_trans : forall x y z, (cmp x y <= 0 -> cmp y z <= 0 -> cmp x z <= 0)%Z.

Lemma cmp_refl x : cmp x x = 0%Z.
Proof. specialize (cmp_antisym x x); lia. Qed.

(** The running minimum of [MinFunc] is the first minimal value seen. *)
Lemma fold_first_min (r : list V) :
  forall p i m,
  nth_error p i = Some m ->
  (forall j x, nth_error p j = Some x -> (cmp x m >= 0)%Z) ->
  (forall j x, j < i -> nth_error p j = Some x -> (cmp x m > 0)%Z) ->
  exists i', let m' := fold_left (fun m v => if Z.ltb (cmp v m) 0 then v else m) r m in
    nth_error (p ++ r) i' = Some m' /\
    (forall j x, nth_error (p ++ r) j = Some x -> (cmp x m' >= 0)%Z) /\
    (forall j x, j < i' -> nth_error (p ++ r) j = Some x -> (cmp x m' > 0)%Z).
Proof.
  induction r as [|v r IH]; intros p i m Hm Hge Hgt.
  - exists i; simpl; rewrite app_nil_r; auto.
  - assert (Hi : i < length p) by (apply nth_error_Some; congruence).
    replace (p ++ v :: r) with ((p ++ [v]) ++ r) by (rewrite <- app_assoc; reflexivity).
    simpl. destruct (Z.ltb_spec (cmp v m) 0) as [Lt|Ge].
    + apply (IH (p ++ [v]) (length p) v).
      * rewrite nth_error_app2, Nat.sub_diag by lia; reflexivity.
      * intros j x Hj.
        destruct (Nat.lt_ge_cases j (length p)) as [Hjp|Hjp].
        -- rewrite nth_error_app1 in Hj by lia.
           specialize (Hge j x Hj).
           destruct (Z.le_gt_cases (cmp x v) 0) as [Le|Gt]; [|lia].
           assert (cmp m v <= 0)%Z.
           { apply (@cmp_trans m x v); [rewrite cmp_antisym; lia|exact Le]. }
           rewrite cmp_antisym in Lt; lia.
        -- rewrite nth_error_app2 in Hj by lia.
           destruct (j - length p) as [|?] eqn:E; [|destruct n; discriminate].
           injection Hj as <-; rewrite cmp_refl; lia.
      * intros j x Hj Hx.
        rewrite nth_error_app1 in Hx by lia.
        specialize (Hge j x Hx).
        destruct (Z.le_gt_cases (cmp x v) 0) as [Le|Gt]; [|lia].
        assert (cmp m v <= 0)%Z.
        { apply (@cmp_trans m x v); [rewrite cmp_antisym; lia|exact Le]. }
        rewrite cmp_antisym in Lt; lia.
    + apply (IH (p ++ [v]) i m).
      * rewrite nth_error_app1 by lia; exact Hm.
      * intros j x Hj.
        destruct (Nat.lt_ge_cases j (length p)) as [Hjp|Hjp].
        -- rewrite nth_error_app1 in Hj by lia; eauto.
        -- rewrite nth_error_app2 in Hj by lia.
           destruct (j - length p) as [|?] eqn:E; [|destruct n; discriminate].
           injection Hj as <-; lia.
      * intros j x Hj Hx.
        rewrite nth_error_app1 in Hx by lia; eauto.
Qed.

Lemma min_func_first_min (zero : V) (l : list V) h fuel :
  length l < fuel -> l <> [] ->
  exists i m, nth_error l i = Some m /\
    MinFunc fuel zero (FromSlice l) cmp h = Some (Returned (m, true) h) /\
    (forall j x, nth_error l j = Some x -> (cmp x m >= 0)%Z) /\
    (forall j x, j < i -> nth_error l j = Some x -> (cmp x m > 0)%Z).
Proof.
  intros Hf Hl. unfold MinFunc. rewrite extreme_func_slice by exact Hf.
  destruct l as [|v r]; [contradiction|].
  destruct (@fold_first_min r [v] 0 v) as [i [Hm [Hge Hgt]]].
  - reflexivity.
  - intros [|[|j]] x Hx; try discriminate; injection Hx as <-; rewrite cmp_refl; lia.
  - intros j x Hj; lia.
  - exists i, (fold_left (fun m v => if Z.ltb (cmp v m) 0 then v else m) r v).
    repeat split; auto.
Qed.

End FirstMinimal.

Lemma max_as_min {V} (zero : V) (cmp : V -> V -> Z) fuel seq h :
  (forall x y, cmp y x = (- cmp x y)%Z) ->
  MaxFunc fuel zero seq cmp h = MinFunc fuel zero seq (fun x y => cmp y x) h.
Proof.
  intros Anti. unfold MaxFunc, MinFunc, extreme_func.
  assert (E : forall v m, Z.gtb (cmp v m) 0 = Z.ltb (cmp m v) 0).
  { intros v m; rewrite (Anti v m).
    destruct (Z.gtb_spec (cmp v m) 0), (Z.ltb_spec (- cmp v m) 0); lia. }
  destruct (pull_next fuel (seq h)) as [[h1|v h1 k|e]|]; auto.
  generalize (k h1) v; clear k v h1. induction fuel as [|f IH]; intros s m; [reflexivity|].
  simpl. destruct (pull_next f s) as [[h1|v h1 k|e]|]; auto.
  rewrite E; apply IH.
Qed.

(** C9. For every slice [l] and every comparator [cmp] that is a total
    preorder ([cmp y x = - cmp x y], and [cmp x y <= 0] transitive), with
    enough fuel to finish: on empty input [MinFunc] and [MaxFunc] return the
    zero value with found = false; on nonempty input they return, with
    found = true, the value [m] at some index [i] such that every value
    compares [>= m] (resp. [<= m]) and every value before index [i] compares
    strictly [> m] (resp. [< m]): the first minimal (resp. maximal) value. *)
Theorem min_max_func_first_extreme {V} (zero : V) (cmp : V -> V -> Z)
  (cmp_antisym : forall x y, cmp y x = (- cmp x y)%Z)
  (cmp_trans : forall x y z, (cmp x y <= 0 -> cmp y z <= 0 -> cmp x z <= 0)%Z)
  (l : list V) (h : Heap) (fuel : nat) :
  length l < fuel ->
  (l = [] ->
     MinFunc fuel zero (FromSlice l) cmp h = Some (Returned (zero, false) h) /\
     MaxFunc fuel zero (FromSlice l) cmp h = Some (Returned (zero, false) h)) /\
  (l <> [] ->
     (exists i m, nth_error l i = Some m /\
        MinFunc fuel zero (FromSlice l) cmp h = Some (Returned (m, true) h) /\
        (forall j x, nth_error l j = Some x -> (cmp x m >= 0)%Z) /\
        (forall j x, j < i -> nth_error l j = Some x -> (cmp x m > 0)%Z)) /\
     (exists i m, nth_error l i = Some m /\
        MaxFunc fuel zero (FromSlice l) cmp h = Some (Returned (m, true) h) /\
        (forall j x, nth_error l j = Some x -> (cmp x m <= 0)%Z) /\
        (forall j x, j < i -> nth_error l j = Some x -> (cmp x m < 0)%Z))).
Proof.
  intros Hf; split.
  - intros ->; unfold MinFunc, MaxFunc; rewrite !extreme_func_slice by exact Hf; auto.
  - intros Hl; split.
    + exact (@min_func_first_min V cmp cmp_antisym cmp_trans zero l h fuel Hf Hl).
    + rewrite max_as_min by exact cmp_antisym.
      assert (A' : forall x y, cmp x y = (- cmp y x)%Z)
        by (intros x y; rewrite (cmp_antisym y x); lia).
      assert (T' : forall x y z, (cmp y x <= 0 -> cmp z y <= 0 -> cmp z x <= 0)%Z)
        by (intros x y z Hxy Hyz; exact (cmp_trans z y x Hyz Hxy)).
      destruct (@min_func_first_min V (fun x y => cmp y x) A' T' zero l h fuel Hf Hl)
        as [i [m [Hm [R [Hge Hgt]]]]].
      exists i, m; split; [exact Hm|split; [exact R|split]].
      * intros j x Hx; specialize (Hge j x Hx); simpl in Hge; rewrite A'; lia.
      * intros j x Hj Hx; specialize (Hgt j x Hj Hx); simpl in Hgt; rewrite A'; lia.
Qed.

Lemma cmp_Compare_antisym x y : cmp_Compare y x = (- cmp_Compare x y)%Z.
Proof.
  unfold cmp_Compare; rewrite (Z.compare_antisym x y).
  destruct (Z.compare x y); reflexivity.
Qed.

Lemma cmp_Compare_le x y : (cmp_Compare x y <= 0)%Z <-> (x <= y)%Z.
Proof.
  unfold cmp_Compare; destruct (Z.compare_spec x y); split; intros; lia.
Qed.

Lemma cmp_Compare_trans x y z :
  (cmp_Compare x y <= 0 -> cmp_Compare y z <= 0 -> cmp_Compare x z <= 0)%Z.
Proof. rewrite !cmp_Compare_le; lia. Qed.

Lemma min_max_func_first_extreme_witness :
  length [4; 3; 2; -1; 0]%Z < 10 /\
  Min 10 (FromSlice [4; 3; 2; -1; 0]%Z) [] = Some (Returned ((-1)%Z, true) []) /\
  Max 10 (FromSlice [4; 3; 2; -1; 0]%Z) [] = Some (Returned (4%Z, true) []) /\
  (([4; 3; 2; -1; 0]%Z <> []) ->
   (exists i m, nth_error [4; 3; 2; -1; 0]%Z i = Some m /\
      MinFunc 10 0%Z (FromSlice [4; 3; 2; -1; 0]%Z) cmp_Compare [] = Some (Returned (m, true) []) /\
      (forall j x, nth_error [4; 3; 2; -1; 0]%Z j = Some x -> (cmp_Compare x m >= 0)%Z) /\
      (forall j x, j < i -> nth_error [4; 3; 2; -1; 0]%Z j = Some x -> (cmp_Compare x m > 0)%Z)) /\
   (exists i m, nth_error [4; 3; 2; -1; 0]%Z i = Some m /\
      MaxFunc 10 0%Z (FromSlice [4; 3; 2; -1; 0]%Z) cmp_Compare [] = Some (Returned (m, true) []) /\
      (forall j x, nth_error [4; 3; 2; -1; 0]%Z j = Some x -> (cmp_Compare x m <= 0)%Z) /\
      (forall j x, j < i -> nth_error [4; 3; 2; -1; 0]%Z j = Some x -> (cmp_Compare x m < 0)%Z))).
Proof.
  split; [simpl; lia|split; [reflexivity|split; [reflexivity|]]].
  apply (proj2 (@min_max_func_first_extreme Z 0%Z cmp_Compare cmp_Compare_antisym
                  cmp_Compare_trans [4; 3; 2; -1; 0]%Z [] 10 ltac:(simpl; lia))).
Defined.

Example take_ex :
  run 20 (fst (Take (FromSlice [1;2;3]) 2 []) [2%N]) = Some (Finished [1;2] [0%N]).
Proof. reflexivity. Qed.

(** * Further properties of the package *)

(** ** Map, MapFromSeq2, MapToSeq2 *)

Lemma outcome_map_cons {A B} (f : A -> B) v o :
  outcome_map f (outcome_cons v o) = outcome_cons (f v) (outcome_map f o).
Proof. destruct o; reflexivity. Qed.

Lemma outcome_map_map {A B C} (f : A -> B) (g : B -> C) o :
  outcome_map g (outcome_map f o) = outcome_map (fun x => g (f x)) o.
Proof. destruct o; simpl; rewrite map_map; reflexivity. Qed.

Lemma runs_map_step {V W} (f : V -> W) (s : Step V) o :
  Runs s o -> Runs (map_step f s) (outcome_map f o).
Proof.
  induction 1 as [h|e|s o H IH|v h k o H IH];
    rewrite (step_frob_eq (map_step _ _)); simpl.
  - constructor.
  - constructor.
  - constructor; exact IH.
  - rewrite outcome_map_cons.
    exact (@runs_yield W (f v) h (fun h' => map_step f (k h')) (outcome_map f o) IH).
Qed.

(** X1. Whatever the traversal of [seq] does (finish after yielding [l], or
    panic after yielding [l]), the traversal of [Map(seq, f)] does the same
    with the values [map f l]: same heap at the end, same panic. *)
Theorem map_collects {V W} (seq : Seq V) (f : V -> W) (h : Heap) (o : outcome V) :
  Runs (seq h) o -> Runs (Map seq f h) (outcome_map f o).
Proof. apply runs_map_step. Qed.

Lemma map_collects_witness :
  Runs (FromSlice [1; 2; 3] []) (Finished [1; 2; 3] []) /\
  Runs (Map (FromSlice [1; 2; 3]) (fun x => 10 * x) []) (Finished [10; 20; 30] []).
Proof.
  split; [apply runs_from_slice|].
  apply (@map_collects nat nat (FromSlice [1; 2; 3]) (fun x => 10 * x) []
           (Finished [1; 2; 3] [])).
  apply runs_from_slice.
Defined.

(** X2. [MapToSeq2] followed by [MapFromSeq2] composes the two functions:
    [MapFromSeq2(MapToSeq2(seq, f), g)] yields [g(f(v))] (the two results of
    [f] passed to [g]) for every value [v] of [seq], in order. *)
Theorem map_seq2_compose {V W X Y} (seq : Seq V) (f : V -> W * X) (g : W -> X -> Y)
  (h : Heap) (o : outcome V) :
  Runs (seq h) o ->
  Runs (MapFromSeq2 (MapToSeq2 seq f) g h)
       (outcome_map (fun v => g (fst (f v)) (snd (f v))) o).
Proof.
  intros H; unfold MapFromSeq2, MapToSeq2, Map.
  rewrite <- (outcome_map_map f (fun wx => g (fst wx) (snd wx))).
  apply runs_map_step, runs_map_step, H.
Qed.

Lemma map_seq2_compose_witness :
  Runs (FromSlice [1; 2] []) (Finished [1; 2] []) /\
  Runs (MapFromSeq2 (MapToSeq2 (FromSlice [1; 2]) (fun v => (v, v * v))) (fun a b => a + b) [])
       (Finished [2; 6] []).
Proof.
  split; [apply runs_from_slice|].
  apply (@map_seq2_compose nat nat nat nat (FromSlice [1; 2]) (fun v => (v, v * v))
           (fun a b => a + b) [] (Finished [1; 2] [])).
  apply runs_from_slice.
Defined.

(** ** TakeWhile / DropWhile with a caller's predicate *)

Lemma chain_yield {V} (seq2 : Seq V) v h k :
  chain seq2 (Yield v h k) = Yield v h (fun h' => chain seq2 (k h')).
Proof. rewrite (step_frob_eq (chain _ _)); reflexivity. Qed.

Lemma runs_take_while_pure {V} (p : V -> bool) (s : Step V) l h' :
  Runs s (Finished l h') ->
  exists h'', Runs (take_while (pure_pred p) s) (Finished (prefix_while p l) h'').
Proof.
  intros H; remember (Finished l h') as o eqn:Eo; revert l Eo.
  induction H as [h|e|s o H IH|v h k o H IH]; intros l Eo;
    rewrite (step_frob_eq (take_while _ _)); simpl.
  - injection Eo as <- <-; exists h; constructor.
  - discriminate.
  - destruct (IH l Eo) as [h'' R]; exists h''; constructor; exact R.
  - destruct o as [l' h1|]; [|discriminate].
    injection Eo as <- <-; simpl.
    unfold pure_pred; destruct (p v).
    + destruct (IH l' eq_refl) as [h'' R]; exists h''; apply runs_yield_fin; exact R.
    + exists h; constructor.
Qed.

Lemma take_while_stops {V} (p : V -> bool) (l : list V) x r (rest : Seq V) h :
  forallb p l = true -> p x = false ->
  Runs (take_while (pure_pred p) (chain rest (FromSlice (l ++ x :: r) h))) (Finished l h).
Proof.
  unfold FromSlice; intros Hl Hx; induction l as [|v l IH]; simpl.
  - rewrite from_slice_cons, chain_yield, (step_frob_eq (take_while _ _)); simpl.
    unfold pure_pred; rewrite Hx; constructor.
  - simpl in Hl; apply andb_true_iff in Hl as [Hv Hl].
    rewrite from_slice_cons, chain_yield, (step_frob_eq (take_while _ _)); simpl.
    unfold pure_pred at 1; rewrite Hv.
    apply runs_yield_fin; exact (IH Hl).
Qed.

(** X3. With a predicate [p] that does not touch the heap, [TakeWhile(seq, p)]
    yields the longest prefix of the values of [seq] that pass [p].  It stops
    at the first value failing [p]: over [Chain(FromSlice(l ++ x :: r), rest)]
    with every value of [l] passing [p] and [x] failing it, it yields [l]
    whatever [rest] is (even an infinite or panicking sequence). *)
Theorem take_while_prefix {V} (p : V -> bool) :
  (forall (seq : Seq V) h l h',
     Runs (seq h) (Finished l h') ->
     exists h'', Runs (TakeWhile seq (pure_pred p) h) (Finished (prefix_while p l) h'')) /\
  (forall (l : list V) x r (rest : Seq V) h,
     forallb p l = true -> p x = false ->
     Runs (TakeWhile (Chain (FromSlice (l ++ x :: r)) rest) (pure_pred p) h) (Finished l h)).
Proof.
  split.
  - intros seq h l h' H; apply runs_take_while_pure with (h' := h'); exact H.
  - intros l x r rest h Hl Hx; apply take_while_stops; assumption.
Qed.

Lemma take_while_prefix_witness :
  (exists h'', Runs (TakeWhile (FromSlice [1; 3; 4; 5]) (pure_pred Nat.odd) [])
                    (Finished (prefix_while Nat.odd [1; 3; 4; 5]) h'')) /\
  Runs (TakeWhile (Chain (FromSlice ([1; 3] ++ 4 :: [5])) (Repeat 7)) (pure_pred Nat.odd) [])
       (Finished [1; 3] []).
Proof.
  split.
  - apply (proj1 (@take_while_prefix nat Nat.odd) (FromSlice [1; 3; 4; 5]) [] [1; 3; 4; 5] []).
    apply runs_from_slice.
  - apply (proj2 (@take_while_prefix nat Nat.odd) [1; 3] 4 [5] (Repeat 7) []);
      reflexivity.
Defined.

Lemma runs_drop_while_pure {V} (p : V -> bool) (s : Step V) l h' :
  Runs s (Finished l h') ->
  Runs (drop_while (pure_pred p) s) (Finished (suffix_after p l) h').
Proof.
  intros H; remember (Finished l h') as o eqn:Eo; revert l Eo.
  induction H as [h|e|s o H IH|v h k o H IH]; intros l Eo;
    rewrite (step_frob_eq (drop_while _ _)); simpl.
  - injection Eo as <- <-; constructor.
  - discriminate.
  - constructor; exact (IH l Eo).
  - destruct o as [l' h1|]; [|discriminate].
    injection Eo as <- <-; simpl.
    unfold pure_pred; destruct (p v).
    + constructor; apply IH; reflexivity.
    + apply runs_yield_fin; exact H.
Qed.

(** X4. With a predicate [p] that does not touch the heap, [DropWhile(seq, p)]
    yields the values of [seq] after its longest prefix passing [p] (values
    after the first failing one are all yielded, whether they pass [p] or
    not), and ends with the heap [seq] ends with. *)
Theorem drop_while_suffix {V} (seq : Seq V) (p : V -> bool) h l h' :
  Runs (seq h) (Finished l h') ->
  Runs (DropWhile seq (pure_pred p) h) (Finished (suffix_after p l) h').
Proof. apply runs_drop_while_pure. Qed.

Lemma drop_while_suffix_witness :
  Runs (FromSlice [1; 3; 4; 5] []) (Finished [1; 3; 4; 5] []) /\
  Runs (DropWhile (FromSlice [1; 3; 4; 5]) (pure_pred Nat.odd) []) (Finished [4; 5] []).
Proof.
  split; [apply runs_from_slice|].
  apply (@drop_while_suffix nat (FromSlice [1; 3; 4; 5]) Nat.odd [] [1; 3; 4; 5] []).
  apply runs_from_slice.
Defined.

(** ** Take, Drop, RepeatN on a first traversal *)

(** X5. The first traversal of [Take(FromSlice(l), n)] yields the first [n]
    values of [l] (all of [l] when [n >= len(l)]), and the first traversal of
    [Drop(FromSlice(l), n)] yields the others (none when [n >= len(l)]). *)
Theorem take_drop_first_traversal {V} (l : list V) (n : N) (h0 : Heap) :
  (exists h', Runs (launch (Take (FromSlice l) n) h0) (Finished (firstn (N.to_nat n) l) h')) /\
  (exists h', Runs (launch (Drop (FromSlice l) n) h0) (Finished (skipn (N.to_nat n) l) h')).
Proof.
  unfold launch, Take, Drop, alloc_bind, alloc, alloc_ret, TakeWhile, DropWhile.
  assert (Hc : length h0 < length (h0 ++ [n])) by (rewrite length_app; simpl; lia).
  split.
  - destruct (@runs_take_slice V l (length h0) (h0 ++ [n]) Hc) as [h' [_ R]].
    rewrite load_alloc_last in R; exists h'; exact R.
  - destruct (@runs_drop_slice V l (length h0) (h0 ++ [n]) Hc) as [h' [_ R]].
    rewrite load_alloc_last in R; exists h'; exact R.
Qed.

Lemma with_func_unfold {V} (f : Heap -> V * Heap) h :
  with_func f h = let (v, h1) := f h in Yield v h1 (with_func f).
Proof. rewrite (step_frob_eq (with_func _ _)); simpl; destruct (f h); reflexivity. Qed.

Lemma repeat_step {V} (v : V) h : Repeat v h = Yield v h (Repeat v).
Proof. unfold Repeat, WithFunc; rewrite with_func_unfold; reflexivity. Qed.

Lemma runs_take_repeat {V} (v : V) c m :
  forall h, c < length h -> load h c = N.of_nat m ->
  exists h', Runs (take_while (count_down c) (Repeat v h)) (Finished (repeat v m) h').
Proof.
  induction m as [|m IH]; intros h Hc Hl;
    rewrite repeat_step, (step_frob_eq (take_while _ _)); simpl;
    unfold count_down at 1; rewrite Hl.
  - exists h; constructor.
  - simpl N.eqb.
    destruct (N.eqb_spec (N.of_nat (S m)) 0) as [E|_]; [lia|].
    destruct (IH (store h c (N.of_nat (S m) - 1))) as [h' R].
    + rewrite store_length; exact Hc.
    + rewrite load_store_same by exact Hc; lia.
    + exists h'; apply runs_yield_fin; exact R.
Qed.

(** X6. Although [Repeat(v)] never ends, the first traversal of
    [RepeatN(v, n)] ends after yielding [v] exactly [n] times. *)
Theorem repeat_n_first_traversal {V} (v : V) (n : N) (h0 : Heap) :
  exists h', Runs (launch (RepeatN v n) h0) (Finished (repeat v (N.to_nat n)) h').
Proof.
  unfold launch, RepeatN, Take, alloc_bind, alloc, alloc_ret, TakeWhile.
  apply runs_take_repeat.
  - rewrite length_app; simpl; lia.
  - rewrite load_alloc_last; lia.
Qed.

(** ** Chain *)

Lemma runs_chain_panic {V} (s : Step V) l e (seq2 : Seq V) :
  Runs s (Panicked l e) -> Runs (chain seq2 s) (Panicked l e).
Proof.
  intros H; remember (Panicked l e) as o eqn:Eo; revert l Eo.
  induction H as [h|p|s o H IH|v h k o H IH]; intros l Eo;
    rewrite (step_frob_eq (chain _ _)); simpl.
  - discriminate.
  - constructor.
  - constructor; exact (IH l Eo).
  - destruct o as [|l' e']; [discriminate|].
    injection Eo as <- <-.
    exact (@runs_yield V v h (fun h' => chain seq2 (k h')) (Panicked l' e') (IH l' eq_refl)).
Qed.

(** X7. [Chain(seq1, seq2)] yields the values of [seq1], then runs [seq2]
    from the heap [seq1] ended with and yields its values, ending as [seq2]
    ends; if [seq1] panics, so does the chain, and [seq2] is never run. *)
Theorem chain_collects {V} (seq1 seq2 : Seq V) (h : Heap) :
  (forall l1 h1 o2, Runs (seq1 h) (Finished l1 h1) -> Runs (seq2 h1) o2 ->
     Runs (Chain seq1 seq2 h) (outcome_app l1 o2)) /\
  (forall l e, Runs (seq1 h) (Panicked l e) -> Runs (Chain seq1 seq2 h) (Panicked l e)).
Proof.
  split.
  - intros l1 h1 o2 H1 H2; unfold Chain; eapply runs_chain; eassumption.
  - intros l e H; unfold Chain; apply runs_chain_panic; exact H.
Qed.

Lemma chain_collects_witness :
  Runs (Chain (FromSlice [1; 2]) (FromSlice [3]) []) (outcome_app [1; 2] (Finished [3] [])).
Proof.
  apply (proj1 (@chain_collects nat (FromSlice [1; 2]) (FromSlice [3]) []) [1; 2] [] (Finished [3] []));
    apply runs_from_slice.
Defined.

(** ** Flatten *)

Lemma runs_flatten_inner {V} (k : Heap -> Step (Seq V)) (l : list V) h r :
  Runs (flatten_outer (k h)) (Finished r h) ->
  Runs (flatten_inner k (from_slice l h)) (Finished (l ++ r) h).
Proof.
  intros H; induction l as [|v l IH].
  - rewrite from_slice_nil, (step_frob_eq (flatten_inner _ _)); simpl.
    constructor; exact H.
  - rewrite from_slice_cons, (step_frob_eq (flatten_inner _ _)); simpl.
    apply runs_yield_fin; exact IH.
Qed.

Lemma runs_flatten_slices {V} (ls : list (list V)) h :
  Runs (flatten_outer (from_slice (map FromSlice ls) h)) (Finished (concat ls) h).
Proof.
  induction ls as [|l ls IH]; simpl.
  - rewrite from_slice_nil, (step_frob_eq (flatten_outer _)); simpl; constructor.
  - rewrite from_slice_cons, (step_frob_eq (flatten_outer _)); simpl.
    constructor; apply runs_flatten_inner; exact IH.
Qed.

(** X8. [Flatten] over a sequence of slices yields the values of the first
    slice, then those of the second, and so on: their concatenation (empty
    inner slices contribute nothing). *)
Theorem flatten_collects {V} (ls : list (list V)) (h : Heap) :
  Runs (Flatten (FromSlice (map FromSlice ls)) h) (Finished (concat ls) h).
Proof. apply runs_flatten_slices. Qed.

(** ** ReverseSlice *)

Lemma firstn_S_nth_error {V} (vs : list V) i v :
  nth_error vs i = Some v -> firstn (S i) vs = firstn i vs ++ [v].
Proof.
  revert i; induction vs as [|x vs IH]; intros [|i] H; simpl in *; try discriminate.
  - injection H as ->; reflexivity.
  - rewrite (IH i H); reflexivity.
Qed.

Lemma runs_reverse_from {V} (vs : list V) n h :
  n <= length vs -> Runs (reverse_from vs n h) (Finished (rev (firstn n vs)) h).
Proof.
  induction n as [|i IH]; intros Hn.
  - rewrite (step_frob_eq (reverse_from _ _ _)); simpl; constructor.
  - destruct (nth_error vs i) as [v|] eqn:E.
    + rewrite (firstn_S_nth_error vs i E), rev_app_distr.
      rewrite (step_frob_eq (reverse_from _ _ _)); simpl; rewrite E.
      apply runs_yield_fin; apply IH; lia.
    + apply nth_error_None in E; lia.
Qed.

(** X9. [ReverseSlice(vs)] yields the values of [vs] in reverse order. *)
Theorem reverse_slice_collects {V} (vs : list V) (h : Heap) :
  Runs (ReverseSlice vs h) (Finished (rev vs) h).
Proof.
  unfold ReverseSlice.
  replace (rev vs) with (rev (firstn (length vs) vs)) by (rewrite firstn_all; reflexivity).
  apply runs_reverse_from; lia.
Qed.

(** ** Reduce *)

Lemma reduce_loop_runs {V W} (f : W -> V -> W) (s : Step V) o :
  Runs s o -> exists n, forall fuel value, n <= fuel ->
  reduce_loop fuel f value s =
  match o with
  | Finished l h' => Some (Returned (fold_left f l value) h')
  | Panicked _ e => Some (Raised e)
  end.
Proof.
  induction 1 as [h|e|s o H IH|v h k o H [n IH]].
  - exists 1; intros [|fuel] value Hf; [lia|reflexivity].
  - exists 1; intros [|fuel] value Hf; [lia|reflexivity].
  - destruct IH as [n IH]; exists (S n); intros [|fuel] value Hf; [lia|].
    simpl; apply IH; lia.
  - exists (S n); intros [|fuel] value Hf; [lia|].
    simpl; rewrite (IH fuel (f value v)) by lia.
    destruct o; reflexivity.
Qed.

(** X10. Given enough fuel, [Reduce(seq, f, init)] returns the left fold of
    [f] over the values of [seq], starting from [init] ([init] itself when
    [seq] yields nothing), with the heap [seq] ends with; if [seq] panics,
    [Reduce] panics with the same panic. *)
Theorem reduce_folds {V W} (seq : Seq V) (f : W -> V -> W) (init : W) (h : Heap) o :
  Runs (seq h) o ->
  exists n, forall fuel, n <= fuel ->
  Reduce fuel seq f init h =
  match o with
  | Finished l h' => Some (Returned (fold_left f l init) h')
  | Panicked _ e => Some (Raised e)
  end.
Proof.
  intros H; destruct (reduce_loop_runs f H) as [n IH].
  exists n; intros fuel Hf; apply IH; exact Hf.
Qed.

Lemma reduce_folds_witness :
  Runs (FromSlice [1; 2; 3] []) (Finished [1; 2; 3] []) /\
  exists n, forall fuel, n <= fuel ->
  Reduce fuel (FromSlice [1; 2; 3]) Nat.add 10 [] = Some (Returned 16 []).
Proof.
  split; [apply runs_from_slice|].
  apply (@reduce_folds nat nat (FromSlice [1; 2; 3]) Nat.add 10 [] (Finished [1; 2; 3] [])).
  apply runs_from_slice.
Defined.

(** ** All, Any, None *)

Lemma all_loop_runs {V} (p : V -> bool) (s : Step V) l h' :
  Runs s (Finished l h') -> exists n, forall fuel, n <= fuel ->
  exists h'', all_loop fuel p s = Some (Returned (forallb p l) h'').
Proof.
  intros H; remember (Finished l h') as o eqn:Eo; revert l Eo.
  induction H as [h|e|s o H IH|v h k o H IH]; intros l Eo.
  - injection Eo as <- <-; exists 1; intros [|fuel] Hf; [lia|]; exists h; reflexivity.
  - discriminate.
  - destruct (IH l Eo) as [n IHn]; exists (S n); intros [|fuel] Hf; [lia|].
    simpl; apply IHn; lia.
  - destruct o as [l' h1|]; [|discriminate].
    injection Eo as <- <-.
    destruct (IH l' eq_refl) as [n IHn]; exists (S n); intros [|fuel] Hf; [lia|].
    simpl; destruct (p v); simpl.
    + apply IHn; lia.
    + exists h; reflexivity.
Qed.

Lemma any_loop_runs {V} (p : V -> bool) (s : Step V) l h' :
  Runs s (Finished l h') -> exists n, forall fuel, n <= fuel ->
  exists h'', any_loop fuel p s = Some (Returned (existsb p l) h'').
Proof.
  intros H; remember (Finished l h') as o eqn:Eo; revert l Eo.
  induction H as [h|e|s o H IH|v h k o H IH]; intros l Eo.
  - injection Eo as <- <-; exists 1; intros [|fuel] Hf; [lia|]; exists h; reflexivity.
  - discriminate.
  - destruct (IH l Eo) as [n IHn]; exists (S n); intros [|fuel] Hf; [lia|].
    simpl; apply IHn; lia.
  - destruct o as [l' h1|]; [|discriminate].
    injection Eo as <- <-.
    destruct (IH l' eq_refl) as [n IHn]; exists (S n); intros [|fuel] Hf; [lia|].
    simpl; destruct (p v); simpl.
    + exists h; reflexivity.
    + apply IHn; lia.
Qed.

(** X11. Given enough fuel, over a sequence whose traversal yields [l],
    [All(seq, p)] returns whether every value of [l] passes [p] (true when
    [l] is empty), [Any(seq, p)] whether some value does (false when [l] is
    empty), and [None(seq, p)] the negation of [Any(seq, p)]. *)
Theorem all_any_none_results {V} (seq : Seq V) (p : V -> bool) (h : Heap) l h' :
  Runs (seq h) (Finished l h') ->
  exists n, forall fuel, n <= fuel ->
  (exists h1, All fuel seq p h = Some (Returned (forallb p l) h1)) /\
  (exists h2, Any fuel seq p h = Some (Returned (existsb p l) h2)) /\
  (exists h3, None_ fuel seq p h = Some (Returned (negb (existsb p l)) h3)).
Proof.
  intros H.
  destruct (all_loop_runs p H) as [n1 A1], (any_loop_runs p H) as [n2 A2].
  exists (n1 + n2); intros fuel Hf.
  destruct (A2 fuel ltac:(lia)) as [h2 E2].
  split; [|split].
  - apply A1; lia.
  - exists h2; exact E2.
  - exists h2; unfold None_, Any; rewrite E2; reflexivity.
Qed.

Lemma all_any_none_results_witness :
  Runs (FromSlice [1; 3; 4] []) (Finished [1; 3; 4] []) /\
  exists n, forall fuel, n <= fuel ->
  (exists h1, All fuel (FromSlice [1; 3; 4]) Nat.odd [] = Some (Returned false h1)) /\
  (exists h2, Any fuel (FromSlice [1; 3; 4]) Nat.odd [] = Some (Returned true h2)) /\
  (exists h3, None_ fuel (FromSlice [1; 3; 4]) Nat.odd [] = Some (Returned false h3)).
Proof.
  split; [apply runs_from_slice|].
  apply (@all_any_none_results nat (FromSlice [1; 3; 4]) Nat.odd [] [1; 3; 4] []).
  apply runs_from_slice.
Defined.

Lemma any_all_chain_slice {V} (p : V -> bool) (l : list V) (rest : Seq V) h :
  forall fuel, length l < fuel ->
  (existsb p l = true -> any_loop fuel p (chain rest (FromSlice l h)) = Some (Returned true h)) /\
  (forallb p l = false -> all_loop fuel p (chain rest (FromSlice l h)) = Some (Returned false h)).
Proof.
  unfold FromSlice; induction l as [|v l IH]; intros [|fuel] Hf; simpl in Hf; try lia.
  - split; simpl; discriminate.
  - rewrite from_slice_cons, chain_yield; simpl.
    destruct (p v); simpl.
    + split; [reflexivity|intros Hl; apply (proj2 (IH fuel ltac:(lia))); exact Hl].
    + split; [intros Hl; apply (proj1 (IH fuel ltac:(lia))); exact Hl|reflexivity].
Qed.

(** X12. [Any], [None] and [All] stop at the first value that decides them:
    over [Chain(FromSlice(l), rest)], when some value of [l] passes [p],
    [Any] returns true and [None] false, and when some value of [l] fails
    [p], [All] returns false, whatever [rest] is (even an infinite or
    panicking sequence), with fuel [len(l) + 1]. *)
Theorem any_all_short_circuit {V} (p : V -> bool) (l : list V) (rest : Seq V) (h : Heap) fuel :
  length l < fuel ->
  (existsb p l = true ->
     Any fuel (Chain (FromSlice l) rest) p h = Some (Returned true h) /\
     None_ fuel (Chain (FromSlice l) rest) p h = Some (Returned false h)) /\
  (forallb p l = false -> All fuel (Chain (FromSlice l) rest) p h = Some (Returned false h)).
Proof.
  intros Hf; destruct (any_all_chain_slice p l rest h Hf) as [A1 A2].
  unfold None_, Any, All, Chain.
  split.
  - intros Hl; rewrite (A1 Hl); split; reflexivity.
  - exact A2.
Qed.

Lemma any_all_short_circuit_witness :
  (Any 3 (Chain (FromSlice [1; 2]) (Repeat 5)) Nat.even [] = Some (Returned true []) /\
   None_ 3 (Chain (FromSlice [1; 2]) (Repeat 5)) Nat.even [] = Some (Returned false [])) /\
  All 3 (Chain (FromSlice [1; 2]) (Repeat 5)) Nat.even [] = Some (Returned false []).
Proof.
  destruct (@any_all_short_circuit nat Nat.even [1; 2] (Repeat 5) [] 3 ltac:(simpl; lia))
    as [A1 A2].
  split; [apply A1; reflexivity | apply A2; reflexivity].
Defined.

(** ** IsSortedFunc, IsSorted *)

Lemma is_sorted_loop_S {V} f (cmp : V -> V -> Z) prev s :
  is_sorted_loop (S f) cmp prev s =
  match pull_next f s with
  | None => None
  | Some (Exhausted h) => Some (Returned true h)
  | Some (PullPanic e) => Some (Raised e)
  | Some (Pulled v h k) =>
      if Z.gtb (cmp prev v) 0 then Some (Returned false h) else is_sorted_loop f cmp v (k h)
  end.
Proof. reflexivity. Qed.

Lemma is_sorted_loop_slice {V} (cmp : V -> V -> Z) (r : list V) :
  forall prev h fuel, length r + 2 <= fuel ->
  is_sorted_loop fuel cmp prev (FromSlice r h) =
  Some (Returned (adjacent_le cmp (prev :: r)) h).
Proof.
  induction r as [|v r IH]; intros prev h fuel Hf;
    (destruct fuel as [|[|f]]; [simpl in Hf; lia|simpl in Hf; lia|]).
  - rewrite is_sorted_loop_S, pull_next_slice_nil; reflexivity.
  - rewrite is_sorted_loop_S, pull_next_slice_cons.
    change (adjacent_le cmp (prev :: v :: r))
      with (Z.leb (cmp prev v) 0 && adjacent_le cmp (v :: r)).
    rewrite Z.gtb_ltb.
    destruct (Z.ltb_spec 0 (cmp prev v)), (Z.leb_spec (cmp prev v) 0); try lia.
    + reflexivity.
    + exact (IH v h (S f) ltac:(simpl in Hf; lia)).
Qed.

Lemma is_sorted_func_slice {V} (cmp : V -> V -> Z) (l : list V) h fuel :
  length l < fuel ->
  IsSortedFunc fuel (FromSlice l) cmp h = Some (Returned (adjacent_le cmp l) h).
Proof.
  intros Hf; unfold IsSortedFunc.
  destruct fuel as [|f]; [lia|].
  destruct l as [|v r].
  - rewrite pull_next_slice_nil; reflexivity.
  - rewrite pull_next_slice_cons. apply is_sorted_loop_slice; simpl in *; lia.
Qed.

(** X13. Given fuel [len(l) + 1], [IsSortedFunc(FromSlice(l), cmp)] returns
    true exactly when [cmp(x, y) <= 0] for every two adjacent values [x], [y]
    of [l]; in particular it returns true for an empty or one-value slice. *)
Theorem is_sorted_func_adjacent {V} (cmp : V -> V -> Z) (l : list V) (h : Heap) fuel :
  length l < fuel ->
  IsSortedFunc fuel (FromSlice l) cmp h = Some (Returned (adjacent_le cmp l) h).
Proof. apply is_sorted_func_slice. Qed.

Lemma is_sorted_func_adjacent_witness :
  length [3; 1; 2]%Z < 4 /\
  IsSortedFunc 4 (FromSlice [3; 1; 2]%Z) (fun x y => (y - x)%Z) [] = Some (Returned false []).
Proof.
  split; [simpl; lia|].
  apply (@is_sorted_func_adjacent Z (fun x y => (y - x)%Z) [3; 1; 2]%Z [] 4); simpl; lia.
Defined.

Lemma adjacent_le_sorted (l : list Z) : adjacent_le cmp_Compare l = true <-> Sorted Z.le l.
Proof.
  induction l as [|x t IH].
  - split; intros; [constructor|reflexivity].
  - destruct t as [|y t'].
    + split; intros; [repeat constructor|reflexivity].
    + change (adjacent_le cmp_Compare (x :: y :: t'))
        with (Z.leb (cmp_Compare x y) 0 && adjacent_le cmp_Compare (y :: t')).
      rewrite andb_true_iff, Z.leb_le, cmp_Compare_le, IH.
      split.
      * intros [Hxy Hs]; constructor; [exact Hs|constructor; exact Hxy].
      * intros Hs; apply Sorted_inv in Hs as [Hs Hd].
        apply HdRel_inv in Hd; split; assumption.
Qed.

(** X14. Given fuel [len(l) + 1], [IsSorted(FromSlice(l))] over integers
    returns true exactly when [l] is sorted in non-decreasing order (equal
    adjacent values are allowed), and false otherwise. *)
Theorem is_sorted_iff_sorted (l : list Z) (h : Heap) fuel :
  length l < fuel ->
  (IsSorted fuel (FromSlice l) h = Some (Returned true h) <-> Sorted Z.le l) /\
  (IsSorted fuel (FromSlice l) h = Some (Returned false h) <-> ~ Sorted Z.le l).
Proof.
  intros Hf; unfold IsSorted; rewrite (is_sorted_func_slice cmp_Compare l h Hf).
  rewrite <- adjacent_le_sorted.
  destruct (adjacent_le cmp_Compare l); split; split; intros H;
    first [reflexivity | discriminate | (exfalso; apply H; reflexivity)
          | (intros E; discriminate)].
Qed.

Lemma is_sorted_iff_sorted_witness :
  length [1; 1; 2]%Z < 4 /\
  (IsSorted 4 (FromSlice [1; 1; 2]%Z) [] = Some (Returned true []) <-> Sorted Z.le [1; 1; 2]%Z).
Proof.
  split; [simpl; lia|].
  apply (proj1 (@is_sorted_iff_sorted [1; 1; 2]%Z [] 4 ltac:(simpl; lia))).
Defined.

(** ** ZipShortest, InterleaveShortest against an infinite sequence *)

Lemma runs_zip_repeat {V W} (w : W) (l : list V) h :
  Runs (zip_next1 (Repeat w) (from_slice l h)) (Finished (map (fun a => (a, w)) l) h).
Proof.
  revert h; induction l as [|a l IH]; intros h.
  - rewrite from_slice_nil, (step_frob_eq (zip_next1 _ _)); simpl; constructor.
  - rewrite from_slice_cons, (step_frob_eq (zip_next1 _ _)); simpl.
    constructor; rewrite repeat_step, (step_frob_eq (zip_next2 _ _ _)); simpl.
    apply runs_yield_fin; apply IH.
Qed.

(** X15. [ZipShortest(FromSlice(l), Repeat(w))] pairs every value of [l]
    with [w] and ends when [l] is exhausted, although [Repeat(w)] never ends. *)
Theorem zip_shortest_repeat {V W} (l : list V) (w : W) (h : Heap) :
  Runs (ZipShortest (FromSlice l) (Repeat w) h) (Finished (map (fun a => (a, w)) l) h).
Proof. apply runs_zip_repeat. Qed.

Lemma runs_interleave_repeat {V} (w : V) (l : list V) :
  forall (c1 : Seq V) h,
  Runs (interleave_shortest c1 (Repeat w) true (from_slice l h))
       (Finished (flatten_pairs (map (fun a => (a, w)) l)) h).
Proof.
  induction l as [|a l IH]; intros c1 h.
  - rewrite from_slice_nil, (step_frob_eq (interleave_shortest _ _ _ _)); simpl; constructor.
  - rewrite from_slice_cons, (step_frob_eq (interleave_shortest _ _ _ _)); simpl.
    apply runs_yield_fin.
    rewrite repeat_step, (step_frob_eq (interleave_shortest _ _ _ _)); simpl.
    apply runs_yield_fin; apply IH.
Qed.

(** X16. [InterleaveShortest(FromSlice(l), Repeat(w))] yields
    [l[0], w, l[1], w, ..., l[n-1], w] and ends when [l] is exhausted,
    although [Repeat(w)] never ends. *)
Theorem interleave_shortest_repeat {V} (l : list V) (w : V) (h : Heap) :
  Runs (InterleaveShortest (FromSlice l) (Repeat w) h)
       (Finished (flatten_pairs (map (fun a => (a, w)) l)) h).
Proof. apply runs_interleave_repeat. Qed.

(** ** Chunks: sizes of the groups *)

Lemma chunk_boundary (s i : nat) :
  1 <= s -> 1 <= i ->
  (i / s = (i - 1) / s /\ i mod s = (i - 1) mod s + 1) \/
  (i / s <> (i - 1) / s /\ i mod s = 0 /\ (i - 1) mod s = s - 1).
Proof.
  intros Hs Hi.
  pose proof (Nat.div_mod i s ltac:(lia)) as D1.
  pose proof (Nat.div_mod (i - 1) s ltac:(lia)) as D0.
  pose proof (Nat.mod_upper_bound i s ltac:(lia)) as M1.
  pose proof (Nat.mod_upper_bound (i - 1) s ltac:(lia)) as M0.
  set (q1 := i / s) in *; set (q0 := (i - 1) / s) in *.
  set (m1 := i mod s) in *; set (m0 := (i - 1) mod s) in *.
  destruct (Nat.eq_dec q1 q0) as [E|E].
  - left; split; [exact E|]. rewrite E in D1; lia.
  - right; split; [exact E|].
    assert (q0 < q1) by (destruct (Nat.lt_total q0 q1) as [|[|]]; nia).
    assert (q1 = S q0) by nia.
    subst q1; nia.
Qed.

Lemma chunks_key_at {V} c (s : nat) (v : V) h i :
  1 <= s -> load h c = N.of_nat i ->
  chunks_key c (N.of_nat s) v h =
  Some (N.of_nat (i / s), store h c (uint_inc (N.of_nat i))).
Proof.
  intros Hs Hl; unfold chunks_key, uint_div; rewrite Hl.
  destruct (N.eqb_spec (N.of_nat s) 0) as [E|_]; [lia|].
  rewrite Nat2N.inj_div; reflexivity.
Qed.

Lemma uint_inc_small (i : nat) :
  (N.of_nat (S i) < uint_modulus)%N -> uint_inc (N.of_nat i) = N.of_nat (S i).
Proof.
  intros H; unfold uint_inc; rewrite N.mod_small; lia.
Qed.

Lemma runs_chunks_loop {V} (c : loc) (s : nat) (r : list V) :
  1 <= s ->
  forall vs i h, c < length h -> 1 <= i -> (N.of_nat (i + length r) < uint_modulus)%N ->
  load h c = N.of_nat i -> length vs = (i - 1) mod s + 1 ->
  exists g gs h',
    Runs (chunk_by_loop N.eq_dec (chunks_key c (N.of_nat s)) vs (N.of_nat ((i - 1) / s))
            (FromSlice r h))
         (Finished (map FromSlice (g :: gs)) h') /\
    concat (g :: gs) = vs ++ r /\
    Forall (fun g => 1 <= length g <= s) (g :: gs) /\
    Forall (fun g => length g = s) (removelast (g :: gs)).
Proof.
  intros Hs; unfold FromSlice; induction r as [|v r IH]; intros vs i h Hc Hi Hb Hl Hvs.
  - exists vs, [], h.
    rewrite from_slice_nil, (step_frob_eq (chunk_by_loop _ _ _ _ _)); simpl.
    pose proof (Nat.mod_upper_bound (i - 1) s ltac:(lia)).
    split; [apply runs_yield_fin; constructor|].
    split; [rewrite app_nil_r; reflexivity|].
    split; [constructor; [lia|constructor]|constructor].
  - rewrite from_slice_cons, (step_frob_eq (chunk_by_loop _ _ _ _ _)); simpl.
    rewrite (@chunks_key_at V c s v h i Hs Hl).
    rewrite (@uint_inc_small i) by (simpl length in Hb; lia).
    set (h1 := store h c (N.of_nat (S i))).
    assert (Hc1 : c < length h1) by (unfold h1; rewrite store_length; exact Hc).
    assert (Hl1 : load h1 c = N.of_nat (S i)) by (unfold h1; apply load_store_same; exact Hc).
    assert (Hb1 : (N.of_nat (S i + length r) < uint_modulus)%N)
      by (simpl length in Hb; replace (S i + length r) with (i + S (length r)) by lia; exact Hb).
    destruct (@chunk_boundary s i Hs Hi) as [[Eq Em]|[Ne [Em1 Em0]]].
    + destruct (N.eq_dec (N.of_nat (i / s)) (N.of_nat ((i - 1) / s))) as [_|E]; [|lia].
      destruct (IH (vs ++ [v]) (S i) h1 Hc1 ltac:(lia) Hb1 Hl1) as [g [gs [h' [R [C [F1 F2]]]]]].
      { replace (S i - 1) with i by lia; rewrite length_app; simpl length; lia. }
      replace ((S i - 1) / s) with ((i - 1) / s) in R by (rewrite <- Eq; f_equal; lia).
      exists g, gs, h'; split; [constructor; exact R|].
      split; [simpl concat in *; rewrite C, <- app_assoc; reflexivity|].
      split; assumption.
    + destruct (N.eq_dec (N.of_nat (i / s)) (N.of_nat ((i - 1) / s))) as [E|_]; [lia|].
      destruct (IH [v] (S i) h1 Hc1 ltac:(lia) Hb1 Hl1) as [g [gs [h' [R [C [F1 F2]]]]]].
      { replace (S i - 1) with i by lia; simpl length; lia. }
      replace ((S i - 1) / s) with (i / s) in R by (f_equal; lia).
      exists vs, (g :: gs), h'.
      split; [apply runs_yield_fin; exact R|].
      split; [simpl; simpl in C; rewrite C; reflexivity|].
      split.
      * constructor; [lia|exact F1].
      * change (removelast (vs :: g :: gs)) with (vs :: removelast (g :: gs)).
        constructor; [lia|exact F2].
Qed.

(** X17. For a size [s >= 1] and a slice [l] shorter than [2^64] (so that the
    counter [i] does not wrap around), the first traversal of
    [Chunks(FromSlice(l), s)] yields groups whose concatenation is [l], each
    holding between 1 and [s] values, all of them but the last exactly [s];
    an empty [l] gives no group at all. *)
Theorem chunks_group_sizes {V} (l : list V) (sz : N) (h0 : Heap) :
  (1 <= sz)%N -> (N.of_nat (length l) < uint_modulus)%N ->
  exists gs h',
    Runs (launch (Chunks (FromSlice l) sz) h0) (Finished (map FromSlice gs) h') /\
    concat gs = l /\
    Forall (fun g => 1 <= length g <= N.to_nat sz) gs /\
    Forall (fun g => length g = N.to_nat sz) (removelast gs).
Proof.
  intros Hsz Hb.
  rewrite <- (N2Nat.id sz) in *; set (s := N.to_nat sz) in *; clearbody s.
  rewrite Nat2N.id.
  assert (Hs : 1 <= s) by lia.
  unfold launch, Chunks, ChunkBy, alloc_bind, alloc, alloc_ret; simpl.
  assert (Hc : length h0 < length (h0 ++ [0%N])) by (rewrite length_app; simpl; lia).
  assert (Hl0 : load (h0 ++ [0%N]) (length h0) = N.of_nat 0) by apply load_alloc_last.
  destruct l as [|v r].
  - exists [], (h0 ++ [0%N]).
    unfold FromSlice; rewrite from_slice_nil, (step_frob_eq (chunk_by_first _ _ _)); simpl.
    split; [constructor|].
    split; [reflexivity|split; constructor].
  - unfold FromSlice at 1; rewrite from_slice_cons, chunk_by_first_yield.
    rewrite (@chunks_key_at V (length h0) s v (h0 ++ [0%N]) 0 Hs Hl0).
    rewrite (@uint_inc_small 0) by (simpl length in Hb; lia).
    set (h1 := store (h0 ++ [0%N]) (length h0) (N.of_nat 1)).
    assert (Hc1 : length h0 < length h1) by (unfold h1; rewrite store_length; exact Hc).
    assert (Hl1 : load h1 (length h0) = N.of_nat 1) by (unfold h1; apply load_store_same; exact Hc).
    destruct (@runs_chunks_loop V (length h0) s r Hs [v] 1 h1 Hc1 ltac:(lia)
                ltac:(simpl length in Hb; replace (1 + length r) with (S (length r)) by lia; exact Hb)
                Hl1 ltac:(simpl; rewrite Nat.Div0.mod_0_l; lia))
      as [g [gs [h' [R [C [F1 F2]]]]]].
    exists (g :: gs), h'.
    split; [constructor; exact R|].
    split; [exact C|split; assumption].
Qed.

Lemma chunks_group_sizes_witness :
  (1 <= 2)%N /\ (N.of_nat (length [1; 2; 3]) < uint_modulus)%N /\
  exists gs h',
    Runs (launch (Chunks (FromSlice [1; 2; 3]) 2) []) (Finished (map FromSlice gs) h') /\
    concat gs = [1; 2; 3] /\
    Forall (fun g => 1 <= length g <= N.to_nat 2) gs /\
    Forall (fun g => length g = N.to_nat 2) (removelast gs).
Proof.
  assert (H1 : (1 <= 2)%N) by lia.
  assert (H2 : (N.of_nat (length [1; 2; 3]) < uint_modulus)%N) by reflexivity.
  split; [exact H1|split; [exact H2|]].
  apply (@chunks_group_sizes nat [1; 2; 3] 2 [] H1 H2).
Defined.

(** ** Min, Max over integers *)

Lemma fold_better_min (r : list Z) (m : Z) :
  fold_left (fun m v => if Z.ltb (cmp_Compare v m) 0 then v else m) r m = fold_left Z.min r m.
Proof.
  revert m; induction r as [|v r IH]; intros m; simpl; [reflexivity|].
  rewrite <- IH; f_equal.
  unfold cmp_Compare; destruct (Z.compare_spec v m); simpl; lia.
Qed.

Lemma fold_better_max (r : list Z) (m : Z) :
  fold_left (fun m v => if Z.gtb (cmp_Compare v m) 0 then v else m) r m = fold_left Z.max r m.
Proof.
  revert m; induction r as [|v r IH]; intros m; simpl; [reflexivity|].
  rewrite <- IH; f_equal.
  unfold cmp_Compare; destruct (Z.compare_spec v m); simpl; lia.
Qed.

(** X18. Given fuel [len(l) + 1], [Min(FromSlice(l))] and [Max(FromSlice(l))]
    over integers return the zero value [0] with found = false when [l] is
    empty, and otherwise the smallest (resp. largest) value of [l] with
    found = true. *)
Theorem min_max_values (l : list Z) (h : Heap) fuel :
  length l < fuel ->
  match l with
  | [] => Min fuel (FromSlice l) h = Some (Returned (0%Z, false) h) /\
          Max fuel (FromSlice l) h = Some (Returned (0%Z, false) h)
  | v :: r => Min fuel (FromSlice l) h = Some (Returned (fold_left Z.min r v, true) h) /\
              Max fuel (FromSlice l) h = Some (Returned (fold_left Z.max r v, true) h)
  end.
Proof.
  intros Hf; unfold Min, Max, MinFunc, MaxFunc.
  rewrite !(extreme_func_slice _ _ _ _ Hf).
  destruct l as [|v r]; [split; reflexivity|].
  rewrite fold_better_min, fold_better_max; split; reflexivity.
Qed.

Lemma min_max_values_witness :
  length [3; -2; 7; -2]%Z < 5 /\
  Min 5 (FromSlice [3; -2; 7; -2]%Z) [] = Some (Returned ((-2)%Z, true) []) /\
  Max 5 (FromSlice [3; -2; 7; -2]%Z) [] = Some (Returned (7%Z, true) []).
Proof.
  split; [simpl; lia|].
  apply (@min_max_values [3; -2; 7; -2]%Z [] 5); simpl; lia.
Defined.
